(** * The client-side helpers of Prose Engine (app/static/js/app.js)

    A shallow embedding of the helper module every page of the
    application loads: the JSON request helper [api], the modal dialog,
    the toast notifications, the loading overlay, the theme toggle and
    [escHtml].

    The code is JavaScript that runs in a browser.  What belongs to the
    repository (the bodies of the functions of app.js) is translated
    statement by statement.  What belongs to the platform (truthiness
    and string conversion of ECMAScript values, [JSON.stringify],
    [fetch], the DOM token list, the HTML text serializer, timers,
    [localStorage]) is modelled after the ECMAScript, Fetch, DOM and
    HTML standards, restricted to the values the helpers can meet. *)

From Stdlib Require Import ZArith Ascii String DecimalString.
From stdpp Require Import gmap strings list fin_maps.

Set Warnings "-register-all".
Local Open Scope Z_scope.

(** ** ECMAScript values *)

Module JS.

(** Numbers.  The helpers only test a number for truthiness and hand it
    to the platform's string conversions, so the model keeps the
    integer-valued doubles of the safe range (as [Z]; [-0] is held as
    [Int 0], from which neither truthiness nor the two string
    conversions tell it apart) beside [NaN] and the two infinities. *)
Inductive number : Type :=
| NaN
| Infinity (negative : bool)
| Int (z : Z).

(** The values without functions, symbols and cycles: what [JSON.parse]
    returns and what a caller passes as a request body.  An object is
    the list of its own enumerable properties in enumeration order; a
    lookup takes the first entry of a key. *)
Inductive value : Type :=
| VUndefined
| VNull
| VBool (b : bool)
| VNumber (n : number)
| VString (s : string)
| VArray (items : list value)
| VObject (props : list (string * value)).

(** What an operation can throw, and what a promise settles to. *)
Inductive exn : Type :=
| Error (message : string)
| TypeError
| SyntaxError.

Inductive settled (A : Type) : Type :=
| Fulfilled (a : A)
| Rejected (e : exn).
Arguments Fulfilled {A} a.
Arguments Rejected {A} e.

Definition bind {A B : Type} (m : settled A) (k : A -> settled B) : settled B :=
  match m with
  | Fulfilled a => k a
  | Rejected e => Rejected e
  end.

Notation "'let*' x ':=' m 'in' k" := (bind m (fun x => k))
  (at level 10, x name, m at level 100, k at level 200).

(** ToBoolean (ECMA-262, 7.1.2). *)
Definition ToBoolean (v : value) : bool :=
  match v with
  | VUndefined | VNull => false
  | VBool b => b
  | VNumber NaN => false
  | VNumber (Infinity _) => true
  | VNumber (Int z) => negb (z =? 0)
  | VString s => negb (String.eqb s "")
  | VArray _ | VObject _ => true
  end.

(** [a || b], both operands already evaluated. *)
Definition or_value (a b : value) : value := if ToBoolean a then a else b.

(** Own property lookup in a property list. *)
Fixpoint own (key : string) (props : list (string * value)) : option value :=
  match props with
  | [] => None
  | (k, v) :: rest => if String.eqb k key then Some v else own key rest
  end.

(** [v.key] for a key that no built-in prototype defines and that is
    neither an index nor [length] (such are [error] and [message], the
    only keys app.js reads): a [TypeError] on [null] and [undefined],
    the own property of an object, [undefined] everywhere else. *)
Definition Get (v : value) (key : string) : settled value :=
  match v with
  | VUndefined | VNull => Rejected TypeError
  | VObject props => Fulfilled (default VUndefined (own key props))
  | _ => Fulfilled VUndefined
  end.

Definition Z_to_string (z : Z) : string := NilZero.string_of_int (Z.to_int z).

(** Number::toString, on the numbers of the model. *)
Definition Number_toString (n : number) : string :=
  match n with
  | NaN => "NaN"
  | Infinity false => "Infinity"
  | Infinity true => "-Infinity"
  | Int z => Z_to_string z
  end.

(** ToString (ECMA-262, 7.1.17).  An array is joined with commas, its
    [null] and [undefined] elements as empty strings.  A plain object
    answers through [Object.prototype.toString], unless an own property
    [toString] shadows it: that property is no function, [valueOf]
    returns no primitive, and the conversion throws a [TypeError]
    ([None]). *)
Fixpoint ToString (v : value) : option string :=
  match v with
  | VUndefined => Some "undefined"
  | VNull => Some "null"
  | VBool true => Some "true"
  | VBool false => Some "false"
  | VNumber n => Some (Number_toString n)
  | VString s => Some s
  | VArray items =>
      (fix join (l : list value) : option string :=
         match l with
         | [] => Some ""
         | x :: rest =>
             match match x with
                   | VUndefined | VNull => Some ""
                   | _ => ToString x
                   end with
             | None => None
             | Some s =>
                 match rest with
                 | [] => Some s
                 | _ :: _ =>
                     match join rest with
                     | None => None
                     | Some t => Some (s +:+ "," +:+ t)
                     end
                 end
             end
         end) items
  | VObject props =>
      match own "toString" props with
      | Some _ => None
      | None => Some "[object Object]"
      end
  end.

(** *** JSON.stringify *)

Definition quote_char : ascii := "034"%char.
Definition backslash : ascii := "092"%char.

Definition hex_digit (n : N) : ascii :=
  ascii_of_N (if (n <? 10)%N then 48 + n else 87 + n)%N.

(** One code unit of QuoteJSONString (ECMA-262, 25.5.2.3).  Strings are
    held as UTF-8 bytes: a byte from 128 on is part of a longer code
    point and passes unchanged. *)
Definition quote_json_char (c : ascii) : string :=
  let n := N_of_ascii c in
  if (n =? 8)%N then String backslash "b"
  else if (n =? 9)%N then String backslash "t"
  else if (n =? 10)%N then String backslash "n"
  else if (n =? 12)%N then String backslash "f"
  else if (n =? 13)%N then String backslash "r"
  else if (n =? 34)%N then String backslash (String quote_char "")
  else if (n =? 92)%N then String backslash (String backslash "")
  else if (n <? 32)%N then
    String backslash
      ("u00" +:+ String (hex_digit (n / 16)) (String (hex_digit (n mod 16)) ""))
  else String c "".

Fixpoint quote_json_chars (s : string) : string :=
  match s with
  | EmptyString => ""
  | String c rest => quote_json_char c +:+ quote_json_chars rest
  end.

Definition QuoteJSONString (s : string) : string :=
  String quote_char (quote_json_chars s +:+ String quote_char "").

(** SerializeJSONProperty without replacer and indentation, which app.js
    never passes.  [None] is the result [undefined].  No value of the
    model is callable, so no [toJSON] method is ever called. *)
Fixpoint JSON_stringify (v : value) : option string :=
  match v with
  | VUndefined => None
  | VNull => Some "null"
  | VBool true => Some "true"
  | VBool false => Some "false"
  | VNumber (Int z) => Some (Z_to_string z)
  | VNumber _ => Some "null"
  | VString s => Some (QuoteJSONString s)
  | VArray items =>
      Some ("[" +:+
            (fix elements (l : list value) : string :=
               match l with
               | [] => ""
               | x :: rest =>
                   let s := default "null" (JSON_stringify x) in
                   match rest with
                   | [] => s
                   | _ :: _ => s +:+ "," +:+ elements rest
                   end
               end) items +:+ "]")
  | VObject props =>
      Some ("{" +:+
            (fix members (l : list (string * value)) (first : bool) : string :=
               match l with
               | [] => ""
               | (k, x) :: rest =>
                   match JSON_stringify x with
                   | None => members rest first
                   | Some s =>
                       (if first then "" else ",") +:+
                       QuoteJSONString k +:+ ":" +:+ s +:+ members rest false
                   end
               end) props true +:+ "}")
  end.

End JS.

(** ** The request helper: [api] (app.js, lines 2-14) *)

Module Api.
Import JS.

(** The second argument of [fetch], as [api] builds it. *)
Record RequestInit : Type := mkInit {
  method : string;
  headers : list (string * string);
  body : option string
}.

(** A response, by the three things [api] reads of it: whether the
    status is a success ([res.ok]: 200 to 299), the status text, and
    what [res.json()] settles to: the parsed body, or a rejection with
    a [SyntaxError] when the body is no JSON text ([None]). *)
Record Response : Type := mkResponse {
  status : Z;
  statusText : string;
  payload : option value
}.

Definition ok (res : Response) : bool :=
  (200 <=? status res) && (status res <=? 299).

Definition json (res : Response) : settled value :=
  match payload res with
  | Some v => Fulfilled v
  | None => Rejected SyntaxError
  end.

(** The network, seen from the page: how [fetch] settles for a call
    (a response, or a rejection: no connection, a refused request), and
    the calls made so far, oldest first.  Every call settles: [api] sets
    no timeout, and a call that stays pending has no outcome to speak
    of. *)
Record Net : Type := mkNet {
  respond : string -> RequestInit -> settled Response;
  calls : list (string * RequestInit)
}.

Definition fetch (url : string) (opts : RequestInit) (net : Net)
  : settled Response * Net :=
  (respond net url opts,
   {| respond := respond net; calls := calls net ++ [(url, opts)] |}).

(** Default parameter values: taken when the argument is [undefined]. *)
Definition default_method (m : option string) : string := default "GET" m.

Definition default_body (b : value) : value :=
  match b with
  | VUndefined => VNull
  | _ => b
  end.

(** Lines 3-7: the options of the request. *)
Definition request_opts (method : string) (body : value) : RequestInit :=
  let opts :=
    {| method := method;
       headers := [("Content-Type", "application/json")];
       body := None |} in
  if ToBoolean body
  then {| method := Api.method opts;
          headers := headers opts;
          body := JSON_stringify body |}
  else opts.

(** [new Error(v)] for a [v] that is not [undefined]. *)
Definition new_Error (v : value) : settled exn :=
  match ToString v with
  | Some s => Fulfilled (Error s)
  | None => Rejected TypeError
  end.

(** Lines 9-12: what a response with a failure status is turned into. *)
Definition failure (res : Response) : settled value :=
  let err :=
    match json res with
    | Fulfilled v => v
    | Rejected _ => VObject [("error", VString (statusText res))]
    end in
  let* e := Get err "error" in
  let* m := (if ToBoolean e then Fulfilled e else Get err "message") in
  let* x := new_Error (or_value m (VString "Request failed")) in
  Rejected x.

Definition api (url : string) (method : option string) (body : value)
    (net : Net) : settled value * Net :=
  let method := default_method method in
  let body := default_body body in
  let opts := request_opts method body in
  let (res, net) := fetch url opts net in
  match res with
  | Rejected e => (Rejected e, net)
  | Fulfilled res =>
      if negb (ok res) then (failure res, net) else (json res, net)
  end.

End Api.

(** ** The document, as far as app.js reaches into it *)

Module Dom.

(** A child node: a text node, the nodes parsed from markup (kept as the
    markup that was assigned through [innerHTML]), or an element that a
    script created and appended.  [uid] is the identity of such an
    element: it is what a closure that holds the element refers to. *)
Inductive Node : Type :=
| TextNode (data : string)
| Markup (html : string)
| ElementNode (uid : nat) (tag : string) (classes : list string)
    (children : list Node).

(** An element: its tag, the token set of its [classList], and its
    children. *)
Record Element : Type := mkElement {
  tagName : string;
  classList : list string;
  childNodes : list Node
}.

Definition createElement (tag : string) : Element :=
  {| tagName := tag; classList := []; childNodes := [] |}.

(** [e.textContent = s]: the children are replaced by one text node, by
    none when [s] is empty. *)
Definition text_nodes (s : string) : list Node :=
  if String.eqb s "" then [] else [TextNode s].

Definition set_textContent (s : string) (e : Element) : Element :=
  {| tagName := tagName e;
     classList := classList e;
     childNodes := text_nodes s |}.

(** [e.innerHTML = h]: the children are replaced by the parsed markup. *)
Definition markup_nodes (h : string) : list Node :=
  if String.eqb h "" then [] else [Markup h].

Definition set_innerHTML (h : string) (e : Element) : Element :=
  {| tagName := tagName e;
     classList := classList e;
     childNodes := markup_nodes h |}.

(** [e.classList.add(t)] and [e.classList.remove(t)] on the token set. *)
Definition classList_add (t : string) (e : Element) : Element :=
  {| tagName := tagName e;
     classList := if bool_decide (t ∈ classList e) then classList e
                  else classList e ++ [t];
     childNodes := childNodes e |}.

Definition classList_remove (t : string) (e : Element) : Element :=
  {| tagName := tagName e;
     classList := filter (λ c, c ≠ t) (classList e);
     childNodes := childNodes e |}.

Definition is_space (c : ascii) : bool :=
  let n := N_of_ascii c in
  ((n =? 9) || (n =? 10) || (n =? 12) || (n =? 13) || (n =? 32))%N.

(** The tokens of a class attribute: split on ASCII whitespace. *)
Fixpoint split_tokens (s : string) (cur : string) : list string :=
  match s with
  | EmptyString => if String.eqb cur "" then [] else [cur]
  | String c rest =>
      if is_space c
      then (if String.eqb cur "" then split_tokens rest ""
            else cur :: split_tokens rest "")
      else split_tokens rest (cur +:+ String c "")
  end.

(** The ordered set of a list of tokens: a token that is in the set
    already is passed over, so the first of its occurrences stays. *)
Definition ordered_set (tokens : list string) : list string :=
  foldl (λ set t, if bool_decide (t ∈ set) then set else set ++ [t]) []
    tokens.

(** [e.className = s]. *)
Definition set_className (s : string) (e : Element) : Element :=
  {| tagName := tagName e;
     classList := ordered_set (split_tokens s "");
     childNodes := childNodes e |}.

(** *** Serializing: the [innerHTML] getter *)

Definition nbsp : string := String "194" (String "160" "").

(** "Escaping a string" of the HTML fragment serializer.  In text the
    ampersand, the no-break space (bytes 194 160 in UTF-8), [<] and [>]
    are replaced; in an attribute value the quote is as well. *)
Fixpoint escape (attribute : bool) (s : string) : string :=
  match s with
  | EmptyString => ""
  | String c rest =>
      if Ascii.eqb c "&" then "&amp;" +:+ escape attribute rest
      else if Ascii.eqb c "<" then "&lt;" +:+ escape attribute rest
      else if Ascii.eqb c ">" then "&gt;" +:+ escape attribute rest
      else if attribute && Ascii.eqb c "034" then "&quot;" +:+ escape attribute rest
      else if Ascii.eqb c "194" then
        match rest with
        | String d rest' =>
            if Ascii.eqb d "160" then "&nbsp;" +:+ escape attribute rest'
            else String c (escape attribute rest)
        | EmptyString => String c ""
        end
      else String c (escape attribute rest)
  end.

Fixpoint join_tokens (l : list string) : string :=
  match l with
  | [] => ""
  | [t] => t
  | t :: rest => t +:+ " " +:+ join_tokens rest
  end.

(** The serialization of a node.  Markup that was assigned through
    [innerHTML] is returned as written; a browser returns it in its
    serialized form. *)
Fixpoint serialize (n : Node) : string :=
  match n with
  | TextNode data => escape false data
  | Markup html => html
  | ElementNode _ tag classes children =>
      "<" +:+ tag +:+
      (match classes with
       | [] => ""
       | _ :: _ =>
           " class=" +:+ String "034" (escape true (join_tokens classes))
           +:+ String "034" ""
       end) +:+ ">" +:+
      (fix all (l : list Node) : string :=
         match l with
         | [] => ""
         | x :: rest => serialize x +:+ all rest
         end) children +:+
      "</" +:+ tag +:+ ">"
  end.

Definition innerHTML (e : Element) : string :=
  foldr (λ n acc, serialize n +:+ acc) "" (childNodes e).

(** *** The page *)

(** The callbacks app.js hands to [setTimeout]: [() => toast.remove()]. *)
Inductive Callback : Type :=
| RemoveNode (uid : nat).

Record Timer : Type := mkTimer {
  due : Z;
  callback : Callback
}.

(** The state of a page: the elements that carry an id (what
    [getElementById] finds), the attributes of the root element,
    [localStorage], the pending timers in the order they will run, the
    clock in milliseconds, the next free node identity, and how many
    click listeners the theme toggle carries.  Each element with an id
    is held with its own children; how these elements nest in one
    another is not recorded, as no helper replaces the children of an
    element that holds another one it looks up. *)
Record Page : Type := mkPage {
  elements : gmap string Element;
  root : gmap string string;
  localStorage : gmap string string;
  timers : list Timer;
  now : Z;
  next_uid : nat;
  toggle_listeners : nat
}.

Definition set_elements (m : gmap string Element) (p : Page) : Page :=
  {| elements := m; root := root p; localStorage := localStorage p;
     timers := timers p; now := now p; next_uid := next_uid p;
     toggle_listeners := toggle_listeners p |}.

(** A script on the page: it returns or throws, and what it did to the
    page before it threw stays done. *)
Definition Script (A : Type) : Type := Page -> JS.settled A * Page.

Definition ret {A : Type} (a : A) : Script A := λ p, (JS.Fulfilled a, p).

Definition seq {A B : Type} (m : Script A) (k : A -> Script B) : Script B :=
  λ p, match m p with
       | (JS.Fulfilled a, p') => k a p'
       | (JS.Rejected e, p') => (JS.Rejected e, p')
       end.

Notation "'do' x <- m ; k" := (seq m (λ x, k))
  (at level 10, x name, m at level 100, k at level 200).
Notation "m ;; k" := (seq m (λ _, k))
  (at level 100, k at level 200, right associativity).

(** [document.getElementById(id)]: [None] is [null]. *)
Definition getElementById (id : string) : Script (option string) :=
  λ p, (JS.Fulfilled (match elements p !! id with
                      | Some _ => Some id
                      | None => None
                      end), p).

(** A property write or method call on what [getElementById] returned:
    a [TypeError] on [null]. *)
Definition on_element (ref : option string) (f : Element -> Element)
  : Script unit :=
  λ p, match ref with
       | Some id =>
           match elements p !! id with
           | Some e => (JS.Fulfilled tt, set_elements (<[id := f e]> (elements p)) p)
           | None => (JS.Rejected JS.TypeError, p)
           end
       | None => (JS.Rejected JS.TypeError, p)
       end.

(** [document.getElementById(id).property = ...] and
    [document.getElementById(id).classList.method(...)] in one
    statement. *)
Definition at_id (id : string) (f : Element -> Element) : Script unit :=
  do e <- getElementById id;
  on_element e f.

(** [parent.appendChild(child)] for a freshly created [child]: the
    node enters the document as the last child and gets its identity,
    which is returned. *)
Definition as_node (uid : nat) (e : Element) : Node :=
  ElementNode uid (tagName e) (classList e) (childNodes e).

Definition append_node (n : Node) (e : Element) : Element :=
  {| tagName := tagName e;
     classList := classList e;
     childNodes := childNodes e ++ [n] |}.

Definition appendChild (parent : option string) (child : Element)
  : Script nat :=
  λ p, match on_element parent (append_node (as_node (next_uid p) child)) p with
       | (JS.Fulfilled _, p') =>
           (JS.Fulfilled (next_uid p),
            {| elements := elements p'; root := root p';
               localStorage := localStorage p'; timers := timers p';
               now := now p'; next_uid := S (next_uid p');
               toggle_listeners := toggle_listeners p' |})
       | (JS.Rejected e, p') => (JS.Rejected e, p')
       end.

Definition node_is (uid : nat) (n : Node) : bool :=
  match n with
  | ElementNode u _ _ _ => Nat.eqb u uid
  | _ => false
  end.

Definition without (uid : nat) (e : Element) : Element :=
  {| tagName := tagName e;
     classList := classList e;
     childNodes := filter (λ n, node_is uid n = false) (childNodes e) |}.

(** [node.remove()]: the node leaves its parent, if it has one.  The
    nodes app.js removes are the ones it appended to an element with an
    id, so the children of those elements are searched. *)
Definition remove (uid : nat) (p : Page) : Page :=
  set_elements (without uid <$> elements p) p.

(** [setTimeout(callback, delay)]: the timer is queued behind the
    timers that are due no later. *)
Fixpoint enqueue (t : Timer) (l : list Timer) : list Timer :=
  match l with
  | [] => [t]
  | x :: rest =>
      if due x <=? due t then x :: enqueue t rest else t :: x :: rest
  end.

Definition setTimeout (c : Callback) (delay : Z) : Script unit :=
  λ p, (JS.Fulfilled tt,
        {| elements := elements p; root := root p;
           localStorage := localStorage p;
           timers := enqueue {| due := now p + delay; callback := c |} (timers p);
           now := now p; next_uid := next_uid p;
           toggle_listeners := toggle_listeners p |}).

Definition run_callback (c : Callback) (p : Page) : Page :=
  match c with
  | RemoveNode uid => remove uid p
  end.

(** [dt] milliseconds pass with no other event: the clock moves on and
    the timers that have come due run, in their order. *)
Definition advance (dt : Z) (p : Page) : Page :=
  let t := now p + dt in
  let fired := filter (λ tm, due tm <= t) (timers p) in
  let pending := filter (λ tm, ¬ due tm <= t) (timers p) in
  foldl (λ q tm, run_callback (callback tm) q)
    {| elements := elements p; root := root p;
       localStorage := localStorage p; timers := pending;
       now := t; next_uid := next_uid p;
       toggle_listeners := toggle_listeners p |}
    fired.

(** [document.documentElement.getAttribute] and [setAttribute]. *)
Definition getAttribute (name : string) : Script (option string) :=
  λ p, (JS.Fulfilled (root p !! name), p).

Definition setAttribute (name value : string) : Script unit :=
  λ p, (JS.Fulfilled tt,
        {| elements := elements p; root := <[name := value]> (root p);
           localStorage := localStorage p; timers := timers p;
           now := now p; next_uid := next_uid p;
           toggle_listeners := toggle_listeners p |}).

(** [localStorage.getItem] and [setItem], for a storage that is
    available and has room. *)
Definition getItem (key : string) : Script (option string) :=
  λ p, (JS.Fulfilled (localStorage p !! key), p).

Definition setItem (key value : string) : Script unit :=
  λ p, (JS.Fulfilled tt,
        {| elements := elements p; root := root p;
           localStorage := <[key := value]> (localStorage p);
           timers := timers p; now := now p; next_uid := next_uid p;
           toggle_listeners := toggle_listeners p |}).

(** [toggle.addEventListener('click', ...)] with the listener of the
    theme toggle. *)
Definition add_toggle_listener : Script unit :=
  λ p, (JS.Fulfilled tt,
        {| elements := elements p; root := root p;
           localStorage := localStorage p; timers := timers p;
           now := now p; next_uid := next_uid p;
           toggle_listeners := S (toggle_listeners p) |}).

End Dom.

(** ** The helpers of app.js that work on the page *)

Module App.
Import Dom.

(** [s || d] for a string argument that may be left out. *)
Definition or_string (s : option string) (d : string) : string :=
  match s with
  | Some x => if String.eqb x "" then d else x
  | None => d
  end.

(** Lines 17-22. *)
Definition openModal (title bodyHtml : string) (footerHtml : option string)
  : Script unit :=
  at_id "modal-title" (set_textContent title) ;;
  at_id "modal-body" (set_innerHTML bodyHtml) ;;
  at_id "modal-footer" (set_innerHTML (or_string footerHtml "")) ;;
  at_id "modal-overlay" (classList_remove "hidden").

(** Lines 24-26. *)
Definition closeModal : Script unit :=
  at_id "modal-overlay" (classList_add "hidden").

(** Lines 29-31: the click listener of the document; [target_id] is
    [e.target.id]. *)
Definition on_document_click (target_id : string) : Script unit :=
  if String.eqb target_id "modal-overlay" then closeModal else ret tt.

(** Lines 34-36: the keydown listener of the document. *)
Definition on_document_keydown (key : string) : Script unit :=
  if String.eqb key "Escape" then closeModal else ret tt.

(** Lines 39-46.  [type] is [None] when the argument is left out. *)
Definition showToast (message : string) (type : option string)
  : Script unit :=
  let type := default "success" type in
  do container <- getElementById "toast-container";
  let toast := createElement "div" in
  let toast := set_className ("toast " +:+ type) toast in
  let toast := set_textContent message toast in
  do uid <- appendChild container toast;
  setTimeout (RemoveNode uid) 4000.

(** Lines 49-52 and 54-56. *)
Definition showLoading (message : option string) : Script unit :=
  let message := default "Processing..." message in
  at_id "loading-message" (set_textContent message) ;;
  at_id "loading-overlay" (classList_remove "hidden").

Definition hideLoading : Script unit :=
  at_id "loading-overlay" (classList_add "hidden").

(** Lines 65-70: the click listener of the theme toggle. *)
Definition on_toggle_click : Script unit :=
  do current <- getAttribute "data-theme";
  let next :=
    match current with
    | Some c => if String.eqb c "dark" then "light" else "dark"
    | None => "dark"
    end in
  setAttribute "data-theme" next ;;
  setItem "theme" next.

(** Lines 59-72: the DOMContentLoaded listener. *)
Definition on_DOMContentLoaded : Script unit :=
  do stored <- getItem "theme";
  let saved := or_string stored "dark" in
  setAttribute "data-theme" saved ;;
  do toggle <- getElementById "theme-toggle";
  match toggle with
  | Some _ => add_toggle_listener
  | None => ret tt
  end.

(** Lines 75-79. *)
Definition escHtml (str : string) : string :=
  let div := createElement "div" in
  let div := set_textContent str div in
  innerHTML div.

(** *** Events *)

(** A listener that throws is reported and the dispatch goes on: what
    counts is the page it leaves. *)
Definition listener (s : Script unit) (p : Page) : Page := snd (s p).

(** A click.  [path] lists the ids of the elements the event passes,
    from its target up to the root (the empty string for an element
    without id).  The listeners of the toggle run when the event passes
    it, then the listener of the document. *)
Definition click (path : list string) (p : Page) : Page :=
  let p :=
    if bool_decide ("theme-toggle" ∈ path)
    then Nat.iter (toggle_listeners p) (listener on_toggle_click) p
    else p in
  listener (on_document_click (default "" (head path))) p.

Definition keydown (key : string) (p : Page) : Page :=
  listener (on_document_keydown key) p.

(** Loading the page: the document comes from the template, the storage
    is what earlier visits left, and the DOMContentLoaded listener
    runs. *)
Definition load (template : gmap string Element)
    (attributes storage : gmap string string) : Page :=
  listener on_DOMContentLoaded
    {| elements := template; root := attributes; localStorage := storage;
       timers := []; now := 0; next_uid := 0; toggle_listeners := 0 |}.

Definition reload (template : gmap string Element)
    (attributes : gmap string string) (p : Page) : Page :=
  load template attributes (localStorage p).

End App.

(** ** What the user sees, and what the properties are stated with *)

Module View.
Import Dom App.

Definition children_of (id : string) (p : Page) : list Node :=
  match elements p !! id with
  | Some e => childNodes e
  | None => []
  end.

(** *** The modal dialog *)

(** What a visible dialog shows. *)
Record Dialog : Type := mkDialog {
  shown_title : list Node;
  shown_body : list Node;
  shown_footer : list Node
}.

(** The dialogs on display: the one of the overlay, unless the overlay
    carries the class [hidden] (or the page has no overlay). *)
Definition visible_dialogs (p : Page) : list Dialog :=
  match elements p !! "modal-overlay" with
  | Some overlay =>
      if bool_decide ("hidden" ∈ classList overlay) then []
      else [{| shown_title := children_of "modal-title" p;
               shown_body := children_of "modal-body" p;
               shown_footer := children_of "modal-footer" p |}]
  | None => []
  end.

(** The page has the four elements of the dialog. *)
Definition has_modal (p : Page) : Prop :=
  is_Some (elements p !! "modal-title") /\
  is_Some (elements p !! "modal-body") /\
  is_Some (elements p !! "modal-footer") /\
  is_Some (elements p !! "modal-overlay").

(** The operations on the dialog: the two functions and the two
    dismissal events. *)
Inductive ModalOp : Type :=
| OpenModal (title bodyHtml : string) (footerHtml : option string)
| CloseModal
| BackdropClick
| EscapeKey.

Definition modal_step (p : Page) (op : ModalOp) : Page :=
  match op with
  | OpenModal t b f => listener (openModal t b f) p
  | CloseModal => listener closeModal p
  | BackdropClick => click ["modal-overlay"] p
  | EscapeKey => keydown "Escape" p
  end.

Definition modal_run (ops : list ModalOp) (p : Page) : Page :=
  foldl modal_step p ops.

(** The state machine of the specification (section 4.2): closed, or
    open with a content; [openModal] opens and replaces, the other
    three close. *)
Definition machine_step (st : list Dialog) (op : ModalOp) : list Dialog :=
  match op with
  | OpenModal t b f =>
      [{| shown_title := text_nodes t;
          shown_body := markup_nodes b;
          shown_footer := markup_nodes (default "" f) |}]
  | CloseModal | BackdropClick | EscapeKey => []
  end.

(** *** Toasts *)

(** The toast with identity [uid] is a child of the element [id]. *)
Definition present (uid : nat) (id : string) (p : Page) : Prop :=
  Exists (λ n, node_is uid n = true) (children_of id p).

(** The identity of a script-made node lies below [bound]. *)
Definition uid_below (bound : nat) (n : Node) : Prop :=
  match n with
  | ElementNode u _ _ _ => (u < bound)%nat
  | _ => True
  end.

Definition target (t : Timer) : nat :=
  match callback t with
  | RemoveNode u => u
  end.

(** The invariant of the page: no node and no timer refers to an
    identity that is still to be given out. *)
Definition wf (p : Page) : Prop :=
  map_Forall (λ _ e, Forall (uid_below (next_uid p)) (childNodes e)) (elements p) /\
  Forall (λ t, (target t < next_uid p)%nat) (timers p).

#[global] Instance uid_below_dec (bound : nat) (n : Node) :
  Decision (uid_below bound n).
Proof. destruct n; cbn; apply _. Defined.

#[global] Instance wf_dec (p : Page) : Decision (wf p).
Proof. unfold wf. apply _. Defined.

(** The timers that have come due once [dt] milliseconds have passed,
    and whether one of a list of timers removes a node. *)
Definition fired (dt : Z) (p : Page) : list Timer :=
  filter (λ t, due t <= now p + dt) (timers p).

Definition removed_by (ts : list Timer) (n : Node) : Prop :=
  Exists (λ t, node_is (target t) n = true) ts.

(** Everything that can happen to a page once it is loaded: a call of
    one of the helpers, a click, a key, or time passing. *)
Inductive Action : Type :=
| Modal (op : ModalOp)
| ShowToast (message : string) (type : option string)
| ShowLoading (message : option string)
| HideLoading
| Click (path : list string)
| Keydown (key : string)
| Wait (dt : Z).

Definition step (p : Page) (a : Action) : Page :=
  match a with
  | Modal op => modal_step p op
  | ShowToast message type => listener (showToast message type) p
  | ShowLoading message => listener (showLoading message) p
  | HideLoading => listener hideLoading p
  | Click path => click path p
  | Keydown key => keydown key p
  | Wait dt => advance dt p
  end.

Definition run (actions : list Action) (p : Page) : Page :=
  foldl step p actions.

(** The time that passes in a run, and the runs in which no wait is
    negative. *)
Definition wait_of (a : Action) : Z :=
  match a with
  | Wait dt => dt
  | _ => 0
  end.

Definition elapsed (actions : list Action) : Z :=
  foldr (λ a t, wait_of a + t) 0 actions.

Definition forward (actions : list Action) : Prop :=
  Forall (λ a, 0 <= wait_of a) actions.

(** A script keeps a property of the page, whether it returns or
    throws. *)
Definition keeps {A : Type} (I : Page -> Prop) (m : Script A) : Prop :=
  forall p, I p -> I (snd (m p)).

(** A write to an element that brings in no script-made node. *)
Definition tidy (f : Element -> Element) : Prop :=
  forall u e,
    Exists (λ n, node_is u n = true) (childNodes (f e)) ->
    Exists (λ n, node_is u n = true) (childNodes e).

(** A property of the page that the helpers other than [showToast]
    cannot break: it looks at the elements, the timers, the clock and
    the next identity only, and it survives a tidy write to an element
    other than the toast container. *)
Class Stable (I : Page -> Prop) : Prop := {
  stable_frame : forall p q,
    elements q = elements p -> timers q = timers p -> now q = now p ->
    next_uid q = next_uid p -> I p -> I q;
  stable_write : forall id f,
    id <> "toast-container" -> tidy f -> keeps I (at_id id f)
}.

(** Following one toast: [u] is its identity and [d] the time its timer
    is due.  Before [d] the toast is in the container and its timer is
    pending; from [d] on the toast is nowhere. *)
Definition toast_timer (u : nat) (d : Z) : Timer :=
  {| due := d; callback := RemoveNode u |}.

Definition alive (u : nat) (d : Z) (q : Page) : Prop :=
  now q < d /\
  Exists (λ n, node_is u n = true) (children_of "toast-container" q) /\
  toast_timer u d ∈ timers q /\
  (forall t, t ∈ timers q -> target t = u -> due t = d).

Definition gone (u : nat) (d : Z) (q : Page) : Prop :=
  d <= now q /\
  forall id, ~ Exists (λ n, node_is u n = true) (children_of id q).

Definition tracked (u : nat) (d : Z) (q : Page) : Prop :=
  (u < next_uid q)%nat /\ (alive u d q \/ gone u d q).

(** The node [showToast] appends. *)
Definition toast_node (uid : nat) (message : string) (type : option string)
  : Node :=
  ElementNode uid "div"
    (ordered_set (split_tokens ("toast " +:+ default "success" type) ""))
    (text_nodes message).

(** *** The theme *)

Definition theme (p : Page) : option string := root p !! "data-theme".

Definition persisted (p : Page) : option string := localStorage p !! "theme".

(** The value a toggle moves to (line 67). *)
Definition flipped (current : option string) : string :=
  match current with
  | Some c => if String.eqb c "dark" then "light" else "dark"
  | None => "dark"
  end.

(** *** Reading escaped text back *)

Fixpoint starts_with (word s : string) {struct word} : bool :=
  match word with
  | EmptyString => true
  | String a word' =>
      match s with
      | String b s' => Ascii.eqb a b && starts_with word' s'
      | EmptyString => false
      end
  end.

(** The character references the serializer writes, read at the start
    of [s] (behind the ampersand): the text one stands for and the
    number of bytes it takes.  Each of the four names ends in its
    semicolon, and no name of a reference holds a semicolon before its
    end, so none of them is the beginning of a longer name: the parser,
    which takes the longest name that matches, takes exactly these. *)
Definition reference (s : string) : option (string * nat) :=
  if starts_with "amp;" s then Some ("&", 4%nat)
  else if starts_with "lt;" s then Some ("<", 3%nat)
  else if starts_with "gt;" s then Some (">", 3%nat)
  else if starts_with "nbsp;" s then Some (nbsp, 5%nat)
  else None.

(** The escaping undone: each of the four references is replaced by
    the text it stands for and every other byte is kept.  This is a
    left inverse of the serializer's escaping and stands for nothing a
    browser does; it shows that escaping loses nothing.  [None] at a
    [<] or at an ampersand that starts none of the four; [skip] bytes of
    a reference are still to be passed over. *)
Fixpoint unescape (skip : nat) (s : string) : option string :=
  match s with
  | EmptyString => Some ""
  | String c rest =>
      match skip with
      | S k => unescape k rest
      | O =>
          if Ascii.eqb c "<" then None
          else if Ascii.eqb c "&" then
            match reference rest with
            | Some (text, n) =>
                match unescape n rest with
                | Some shown => Some (text +:+ shown)
                | None => None
                end
            | None => None
            end
          else
            match unescape 0 rest with
            | Some shown => Some (String c shown)
            | None => None
            end
      end
  end.

(** *** Markup parsed as the content of an element *)










End View.

(** ** Further observations of the page *)

Module Observe.
Import Dom App View.

(** The loading overlay is on display: it is there and does not carry
    the class [hidden]. *)
Definition loading_visible (p : Page) : bool :=
  match elements p !! "loading-overlay" with
  | Some overlay => negb (bool_decide ("hidden" ∈ classList overlay))
  | None => false
  end.

(** The page has the two elements of the loading overlay. *)
Definition has_loading (p : Page) : Prop :=
  is_Some (elements p !! "loading-message") /\
  is_Some (elements p !! "loading-overlay").

(** Calling [showLoading] once for every message of a list, in order. *)
Definition show_all (messages : list (option string)) (p : Page) : Page :=
  foldl (λ q m, listener (showLoading m) q) p messages.

(** Calling [showToast] once for every toast of a list, in order. *)
Definition toast_all (toasts : list (string * option string)) (p : Page)
  : Page :=
  foldl (λ q t, listener (showToast (fst t) (snd t)) q) p toasts.

(** The nodes these calls append, the first with identity [uid]. *)
Fixpoint toast_nodes (uid : nat) (toasts : list (string * option string))
  : list Node :=
  match toasts with
  | [] => []
  | t :: rest => toast_node uid (fst t) (snd t) :: toast_nodes (S uid) rest
  end.

(** The operations that close the dialog. *)
Definition closes (op : ModalOp) : bool :=
  match op with
  | OpenModal _ _ _ => false
  | CloseModal | BackdropClick | EscapeKey => true
  end.

(** [q] is [p] but for the elements with an id of [ids]. *)
Definition same_outside (ids : list string) (p q : Page) : Prop :=
  root q = root p /\ localStorage q = localStorage p /\
  timers q = timers p /\ now q = now p /\ next_uid q = next_uid p /\
  toggle_listeners q = toggle_listeners p /\
  forall id, id ∉ ids -> elements q !! id = elements p !! id.

(** A script that writes to the elements of [ids] and to nothing else,
    whether it returns or throws. *)
Definition touches {A : Type} (ids : list string) (m : Script A) : Prop :=
  forall p, same_outside ids p (snd (m p)).

Definition modal_ids : list string :=
  ["modal-title"; "modal-body"; "modal-footer"; "modal-overlay"].

Definition loading_ids : list string :=
  ["loading-message"; "loading-overlay"].

(** A series of clicks. *)
Definition click_all (paths : list (list string)) (p : Page) : Page :=
  foldl (λ q path, click path q) p paths.

(** The byte [c] occurs in [s]. *)
Fixpoint occurs (c : ascii) (s : string) : bool :=
  match s with
  | EmptyString => false
  | String d rest => Ascii.eqb c d || occurs c rest
  end.

(** The no-break space (bytes 194 160) occurs in [s]. *)
Fixpoint has_nbsp (s : string) : bool :=
  match s with
  | EmptyString => false
  | String c rest =>
      (Ascii.eqb c "194"
       && match rest with
          | String d _ => Ascii.eqb d "160"
          | EmptyString => false
          end)
      || has_nbsp rest
  end.

(** [s] holds nothing the serializer replaces: no ampersand, no angle
    bracket and no no-break space. *)
Definition plain_text (s : string) : bool :=
  negb (occurs "&" s) && negb (occurs "<" s) && negb (occurs ">" s)
  && negb (has_nbsp s).

End Observe.

(** ** The script of the marketing site (site/js/main.js) *)

Module Site.
Import JS.

(** [e.classList.contains(t)] and [e.classList.toggle(t)]. *)
Definition classList_contains (t : string) (e : Dom.Element) : bool :=
  bool_decide (t ∈ Dom.classList e).

Definition classList_toggle (t : string) (e : Dom.Element) : Dom.Element :=
  if classList_contains t e then Dom.classList_remove t e
  else Dom.classList_add t e.

(** [list[i]] for a number [i]: [None] is [undefined]. *)
Definition item {A : Type} (l : list A) (i : Z) : option A :=
  if i <? 0 then None else l !! Z.to_nat i.

(** A handler on a state [S]: it returns or throws, and what it did
    before it threw stays done. *)
Definition Prog (S A : Type) : Type := S -> settled A * S.

Definition ret {S A : Type} (a : A) : Prog S A := λ s, (Fulfilled a, s).

Definition seq {S A B : Type} (m : Prog S A) (k : A -> Prog S B) : Prog S B :=
  λ s, match m s with
       | (Fulfilled a, s') => k a s'
       | (Rejected e, s') => (Rejected e, s')
       end.

Notation "m ;; k" := (seq m (λ _, k))
  (at level 100, k at level 200, right associativity).

(** An event listener: an error is reported and the state stays as the
    listener left it. *)
Definition handled {S : Type} (m : Prog S unit) (s : S) : S := snd (m s).

(** *** The mobile navigation (lines 7-31 and 202-220) *)

(** The toggle button and the navigation, each [None] when the page has
    no such element; the [.has-dropdown] items of the navigation, each
    with whether it holds a [.dropdown-menu] (every one of them holds a
    link, or line 20 throws while the page loads); and
    [window.innerWidth]. *)
Record Nav : Type := mkNav {
  mobileToggle : option Dom.Element;
  mainNav : option Dom.Element;
  dropdownItems : list (bool * Dom.Element);
  innerWidth : Z
}.

(** A click on the toggle, on the link of a dropdown item, on a link to
    an anchor of the page ([found]: the [href] is not [#] and
    [document.querySelector] finds its target), and a change of the
    width of the window. *)
Inductive NavEvent : Type :=
| ToggleClick
| DropdownLinkClick (index : nat)
| AnchorClick (found : bool)
| Resize (width : Z).

Definition nav_step (s : Nav) (ev : NavEvent) : Nav :=
  match ev with
  | ToggleClick =>
      match mobileToggle s, mainNav s with
      | Some toggle, Some nav =>
          {| mobileToggle := Some (classList_toggle "active" toggle);
             mainNav := Some (classList_toggle "active" nav);
             dropdownItems := dropdownItems s; innerWidth := innerWidth s |}
      | _, _ => s
      end
  | DropdownLinkClick index =>
      match mobileToggle s, mainNav s, dropdownItems s !! index with
      | Some _, Some _, Some (has_menu, it) =>
          if (innerWidth s <=? 768) && has_menu
          then {| mobileToggle := mobileToggle s; mainNav := mainNav s;
                  dropdownItems :=
                    <[index := (has_menu, classList_toggle "open" it)]>
                      (dropdownItems s);
                  innerWidth := innerWidth s |}
          else s
      | _, _, _ => s
      end
  | AnchorClick found =>
      if found then
        match mainNav s with
        | Some nav =>
            if classList_contains "active" nav
            then {| mobileToggle :=
                      Dom.classList_remove "active" <$> mobileToggle s;
                    mainNav := Some (Dom.classList_remove "active" nav);
                    dropdownItems := dropdownItems s;
                    innerWidth := innerWidth s |}
            else s
        | None => s
        end
      else s
  | Resize width =>
      {| mobileToggle := mobileToggle s; mainNav := mainNav s;
         dropdownItems := dropdownItems s; innerWidth := width |}
  end.

Definition nav_run (evs : list NavEvent) (s : Nav) : Nav :=
  foldl nav_step s evs.

(** The toggle and the navigation are both open or both closed. *)
Definition in_sync (s : Nav) : Prop :=
  exists toggle nav,
    mobileToggle s = Some toggle /\ mainNav s = Some nav /\
    (classList_contains "active" toggle = classList_contains "active" nav).

(** *** The hero carousel (lines 45-117) *)

(** The slides and the indicators as [querySelectorAll] returned them
    (two static lists of distinct elements), the variables
    [currentSlide], [autoPlayInterval], [touchStartX] and [touchEndX],
    and the timers of the page: the handles of the running intervals,
    each of which calls [nextSlide] every 5000 ms, and the next free
    handle. *)
Record Carousel : Type := mkCarousel {
  slides : list Dom.Element;
  indicators : list Dom.Element;
  currentSlide : Z;
  autoPlayInterval : option nat;
  intervals : list nat;
  next_handle : nat;
  touchStartX : Z;
  touchEndX : Z
}.

Definition set_slides (l : list Dom.Element) (c : Carousel) : Carousel :=
  {| slides := l; indicators := indicators c; currentSlide := currentSlide c;
     autoPlayInterval := autoPlayInterval c; intervals := intervals c;
     next_handle := next_handle c; touchStartX := touchStartX c;
     touchEndX := touchEndX c |}.

Definition set_indicators (l : list Dom.Element) (c : Carousel) : Carousel :=
  {| slides := slides c; indicators := l; currentSlide := currentSlide c;
     autoPlayInterval := autoPlayInterval c; intervals := intervals c;
     next_handle := next_handle c; touchStartX := touchStartX c;
     touchEndX := touchEndX c |}.

Definition set_currentSlide (i : Z) (c : Carousel) : Carousel :=
  {| slides := slides c; indicators := indicators c; currentSlide := i;
     autoPlayInterval := autoPlayInterval c; intervals := intervals c;
     next_handle := next_handle c; touchStartX := touchStartX c;
     touchEndX := touchEndX c |}.

(** [slides[i].classList...] and [indicators[i].classList...]: a
    [TypeError] when the list has no element [i]. *)
Definition on_slide (i : Z) (f : Dom.Element -> Dom.Element) : Prog Carousel unit :=
  λ c, match item (slides c) i with
       | Some e => (Fulfilled tt, set_slides (<[Z.to_nat i := f e]> (slides c)) c)
       | None => (Rejected TypeError, c)
       end.

Definition on_indicator (i : Z) (f : Dom.Element -> Dom.Element)
  : Prog Carousel unit :=
  λ c, match item (indicators c) i with
       | Some e =>
           (Fulfilled tt, set_indicators (<[Z.to_nat i := f e]> (indicators c)) c)
       | None => (Rejected TypeError, c)
       end.

(** Lines 55-61.  Line 58 is reached only past line 56, which throws
    when there is no slide, so the divisor of [%] is positive there;
    [%] on integers is [Z.rem]. *)
Definition goToSlide (index : Z) : Prog Carousel unit :=
  (λ c, on_slide (currentSlide c) (Dom.classList_remove "active") c) ;;
  (λ c, on_indicator (currentSlide c) (Dom.classList_remove "active") c) ;;
  (λ c, (Fulfilled tt,
         set_currentSlide
           (Z.rem (index + Z.of_nat (length (slides c)))
                  (Z.of_nat (length (slides c)))) c)) ;;
  (λ c, on_slide (currentSlide c) (Dom.classList_add "active") c) ;;
  (λ c, on_indicator (currentSlide c) (Dom.classList_add "active") c).

(** Lines 63-69. *)
Definition nextSlide : Prog Carousel unit :=
  λ c, goToSlide (currentSlide c + 1) c.

Definition prevSlide : Prog Carousel unit :=
  λ c, goToSlide (currentSlide c - 1) c.

(** Lines 71-73: [autoPlayInterval = setInterval(nextSlide, 5000)]. *)
Definition startAutoPlay : Prog Carousel unit :=
  λ c, (Fulfilled tt,
        {| slides := slides c; indicators := indicators c;
           currentSlide := currentSlide c;
           autoPlayInterval := Some (next_handle c);
           intervals := intervals c ++ [next_handle c];
           next_handle := S (next_handle c);
           touchStartX := touchStartX c; touchEndX := touchEndX c |}).

(** Lines 75-77: [clearInterval(autoPlayInterval)], which does nothing
    for [undefined] and for a handle that is not running. *)
Definition stopAutoPlay : Prog Carousel unit :=
  λ c, (Fulfilled tt,
        match autoPlayInterval c with
        | Some h =>
            {| slides := slides c; indicators := indicators c;
               currentSlide := currentSlide c;
               autoPlayInterval := autoPlayInterval c;
               intervals := filter (λ x, x ≠ h) (intervals c);
               next_handle := next_handle c;
               touchStartX := touchStartX c; touchEndX := touchEndX c |}
        | None => c
        end).

(** Lines 80-81: the listeners of the two controls. *)
Definition on_next_click : Prog Carousel unit :=
  stopAutoPlay ;; nextSlide ;; startAutoPlay.

Definition on_prev_click : Prog Carousel unit :=
  stopAutoPlay ;; prevSlide ;; startAutoPlay.

(** Lines 84-90: the listener of the indicator at position [index]. *)
Definition on_indicator_click (index : nat) : Prog Carousel unit :=
  stopAutoPlay ;; goToSlide (Z.of_nat index) ;; startAutoPlay.

(** Lines 93-94. *)
Definition on_mouseenter : Prog Carousel unit := stopAutoPlay.

Definition on_mouseleave : Prog Carousel unit := startAutoPlay.

(** Lines 100-103 and 105-113; [x] is [e.changedTouches[0].screenX]. *)
Definition set_touchStartX (x : Z) : Prog Carousel unit :=
  λ c, (Fulfilled tt,
        {| slides := slides c; indicators := indicators c;
           currentSlide := currentSlide c;
           autoPlayInterval := autoPlayInterval c;
           intervals := intervals c; next_handle := next_handle c;
           touchStartX := x; touchEndX := touchEndX c |}).

Definition set_touchEndX (x : Z) : Prog Carousel unit :=
  λ c, (Fulfilled tt,
        {| slides := slides c; indicators := indicators c;
           currentSlide := currentSlide c;
           autoPlayInterval := autoPlayInterval c;
           intervals := intervals c; next_handle := next_handle c;
           touchStartX := touchStartX c; touchEndX := x |}).

Definition on_touchstart (x : Z) : Prog Carousel unit :=
  set_touchStartX x ;; stopAutoPlay.

Definition swipe : Prog Carousel unit :=
  λ c, if touchStartX c - touchEndX c >? 50 then nextSlide c
       else if touchEndX c - touchStartX c >? 50 then prevSlide c
       else ret tt c.

Definition on_touchend (x : Z) : Prog Carousel unit :=
  set_touchEndX x ;; swipe ;; startAutoPlay.

(** What happens to a carousel: the events its listeners wait for, and
    a running interval coming due. *)
Inductive CarouselEvent : Type :=
| NextClick
| PrevClick
| IndicatorClick (index : nat)
| MouseEnter
| MouseLeave
| TouchStart (x : Z)
| TouchEnd (x : Z)
| IntervalDue (handle : nat).

(** An interval that comes due calls [nextSlide] if it is running. *)
Definition on_interval (h : nat) : Prog Carousel unit :=
  λ c, if bool_decide (h ∈ intervals c) then nextSlide c else ret tt c.

Definition listener_of (ev : CarouselEvent) : Prog Carousel unit :=
  match ev with
  | NextClick => on_next_click
  | PrevClick => on_prev_click
  | IndicatorClick index => on_indicator_click index
  | MouseEnter => on_mouseenter
  | MouseLeave => on_mouseleave
  | TouchStart x => on_touchstart x
  | TouchEnd x => on_touchend x
  | IntervalDue h => on_interval h
  end.

Definition carousel_step (c : Carousel) (ev : CarouselEvent) : Carousel :=
  handled (listener_of ev) c.

Definition carousel_run (evs : list CarouselEvent) (c : Carousel) : Carousel :=
  foldl carousel_step c evs.

(** The errors the listeners threw along a run. *)
Fixpoint thrown (evs : list CarouselEvent) (c : Carousel) : list exn :=
  match evs with
  | [] => []
  | ev :: evs =>
      match listener_of ev c with
      | (Fulfilled _, c') => thrown evs c'
      | (Rejected e, c') => e :: thrown evs c'
      end
  end.

(** Lines 46-53 and 116: the carousel when the page has loaded. *)
Definition carousel_start (slides indicators : list Dom.Element) : Carousel :=
  handled startAutoPlay
    {| slides := slides; indicators := indicators; currentSlide := 0;
       autoPlayInterval := None; intervals := []; next_handle := 0;
       touchStartX := 0; touchEndX := 0 |}.

(** An event that can happen: an indicator that is clicked is one of
    the indicators. *)
Definition can_happen (c : Carousel) (ev : CarouselEvent) : Prop :=
  match ev with
  | IndicatorClick index => (index < length (indicators c))%nat
  | _ => True
  end.

(** The carousel shows its current slide: there are as many indicators
    as slides, [currentSlide] is the position of one of them, and the
    class [active] is on that slide and that indicator and on no
    other. *)
Definition active (e : Dom.Element) : Prop := "active" ∈ Dom.classList e.

Definition shows (c : Carousel) : Prop :=
  length (indicators c) = length (slides c) /\
  0 <= currentSlide c < Z.of_nat (length (slides c)) /\
  (forall i e, slides c !! i = Some e ->
               (active e <-> Z.of_nat i = currentSlide c)) /\
  (forall i e, indicators c !! i = Some e ->
               (active e <-> Z.of_nat i = currentSlide c)).

(** The slide an event leads to, when the carousel shows its current
    slide. *)
Definition destination (c : Carousel) (ev : CarouselEvent) : Z :=
  let n := Z.of_nat (length (slides c)) in
  let next := (currentSlide c + 1) mod n in
  let prev := (currentSlide c - 1) mod n in
  match ev with
  | NextClick => next
  | PrevClick => prev
  | IndicatorClick index => Z.of_nat index
  | TouchEnd x =>
      if touchStartX c - x >? 50 then next
      else if x - touchStartX c >? 50 then prev
      else currentSlide c
  | IntervalDue h =>
      if bool_decide (h ∈ intervals c) then next else currentSlide c
  | MouseEnter | MouseLeave | TouchStart _ => currentSlide c
  end.

(** The carousel is stuck: its current slide, or the indicator of its
    current slide, does not exist. *)
Definition stuck (c : Carousel) : Prop :=
  item (slides c) (currentSlide c) = None \/
  item (indicators c) (currentSlide c) = None.



(** What two carousels can have in common: the timers; all but the
    slide shown; the slide shown. *)
Definition same_timers (c c' : Carousel) : Prop :=
  autoPlayInterval c' = autoPlayInterval c /\
  intervals c' = intervals c /\
  next_handle c' = next_handle c.

Definition same_but_slide (c c' : Carousel) : Prop :=
  same_timers c c' /\
  touchStartX c' = touchStartX c /\ touchEndX c' = touchEndX c /\
  length (slides c') = length (slides c) /\
  length (indicators c') = length (indicators c).

Definition same_show (c c' : Carousel) : Prop :=
  slides c' = slides c /\ indicators c' = indicators c /\
  currentSlide c' = currentSlide c.

(** [m] keeps [P], whether it returns or throws. *)
Definition preserves {A : Type} (P : Carousel -> Prop) (m : Prog Carousel A)
  : Prop :=
  forall c, P c -> P (snd (m c)).

(** [c] is where [c0] was, and has no active slide that [c0] had not. *)
Definition stays (c0 c : Carousel) : Prop :=
  currentSlide c = currentSlide c0 /\
  length (slides c) = length (slides c0) /\
  length (indicators c) = length (indicators c0) /\
  forall i e, slides c !! i = Some e -> active e ->
              exists e0, slides c0 !! i = Some e0 /\ active e0.

(** *** The gallery filter (lines 119-146) *)

(** An element of a grid with its [data-category] attribute ([None]
    when it has none: [querySelectorAll('[data-category]')] passes it
    over) and the [display] of its style. *)
Record Tile : Type := mkTile {
  data_category : option string;
  display : string
}.

(** The filter buttons with their [data-filter] attribute, and the two
    grids, each [None] when the page has no such element. *)
Record Gallery : Type := mkGallery {
  filterBtns : list (option string * Dom.Element);
  galleryGrid : option (list Tile);
  storeGrid : option (list Tile)
}.

(** Lines 136-142: the loop body. *)
Definition filter_tile (filter : option string) (t : Tile) : Tile :=
  match data_category t with
  | Some category =>
      if bool_decide (filter = Some "all")
         || bool_decide (Some category = filter)
      then {| data_category := data_category t; display := "" |}
      else {| data_category := data_category t; display := "none" |}
  | None => t
  end.

Definition button_off (b : option string * Dom.Element) : option string * Dom.Element :=
  (fst b, Dom.classList_remove "active" (snd b)).

Definition button_on (b : option string * Dom.Element) : option string * Dom.Element :=
  (fst b, Dom.classList_add "active" (snd b)).

(** Lines 126-144: the click listener of the button at position [k]
    (there is no such event when there is no such button). *)
Definition on_filter_click (k : nat) (g : Gallery) : Gallery :=
  match filterBtns g !! k with
  | None => g
  | Some this =>
      let btns := alter button_on k (button_off <$> filterBtns g) in
      let filter := fst this in
      match galleryGrid g with
      | Some tiles =>
          {| filterBtns := btns;
             galleryGrid := Some (filter_tile filter <$> tiles);
             storeGrid := storeGrid g |}
      | None =>
          match storeGrid g with
          | Some tiles =>
              {| filterBtns := btns;
                 galleryGrid := None;
                 storeGrid := Some (filter_tile filter <$> tiles) |}
          | None =>
              {| filterBtns := btns; galleryGrid := None; storeGrid := None |}
          end
      end
  end.

(** Line 132: the grid that is filtered, [galleryGrid || storeGrid]. *)
Definition grid (g : Gallery) : option (list Tile) :=
  match galleryGrid g with
  | Some tiles => Some tiles
  | None => storeGrid g
  end.

(** *** The lightbox (lines 148-189) *)

Record Image : Type := mkImage {
  src : string;
  alt : string
}.

(** The lightbox element, its image and whether it has a close button;
    the gallery grid as the list of its [.gallery-item] elements, each
    with its first [img] if it has one ([None] for the grid when the
    page has none); and [document.body.style.overflow]. *)
Record Lightbox : Type := mkLightbox {
  lightbox : option Dom.Element;
  lightboxImage : option Image;
  lightboxClose : bool;
  galleryItems : option (list (option Image));
  overflow : string
}.

Inductive LightboxEvent : Type :=
| ItemClick (index : nat)
| CloseClick
| LightboxClick (target_is_lightbox : bool)
| KeyDown (key : string).

(** Lines 175-176, 181-182 and 186-187. *)
Definition dismiss (box : Dom.Element) (s : Lightbox) : Lightbox :=
  {| lightbox := Some (Dom.classList_remove "active" box);
     lightboxImage := lightboxImage s; lightboxClose := lightboxClose s;
     galleryItems := galleryItems s; overflow := "" |}.

(** Lines 152-189: the listeners are attached when the page has both
    the lightbox and the gallery grid, and not otherwise. *)
Definition lightbox_step (s : Lightbox) (ev : LightboxEvent) : Lightbox :=
  match lightbox s, galleryItems s with
  | Some box, Some items =>
      match ev with
      | ItemClick index =>
          match items !! index with
          | Some (Some img) =>
              match lightboxImage s with
              | Some _ =>
                  {| lightbox := Some (Dom.classList_add "active" box);
                     lightboxImage := Some {| src := src img; alt := alt img |};
                     lightboxClose := lightboxClose s;
                     galleryItems := galleryItems s;
                     overflow := "hidden" |}
              | None => s
              end
          | _ => s
          end
      | CloseClick => if lightboxClose s then dismiss box s else s
      | LightboxClick on_box => if on_box then dismiss box s else s
      | KeyDown key =>
          if String.eqb key "Escape" && classList_contains "active" box
          then dismiss box s else s
      end
  | _, _ => s
  end.

Definition lightbox_run (evs : list LightboxEvent) (s : Lightbox) : Lightbox :=
  foldl lightbox_step s evs.

Definition lightbox_open (s : Lightbox) : bool :=
  match lightbox s with
  | Some box => classList_contains "active" box
  | None => false
  end.

(** The page does not scroll exactly when the lightbox is open. *)
Definition scroll_locked (s : Lightbox) : Prop :=
  lightbox_open s = true <-> overflow s = "hidden".

End Site.

(** ** Examples: servers and pages *)

Module Examples.
Import JS Api.

(** A server that answers every request with the same response. *)
Definition server (res : Response) : Net :=
  {| respond := λ _ _, Fulfilled res; calls := [] |}.

Definition draft_one : value := VObject [("title", VString "Draft One")].

Definition created : Response :=
  {| status := 201; statusText := "Created";
     payload := Some (VObject [("id", VNumber (Int 1));
                               ("title", VString "Draft One")]) |}.

(** A success without a body: the answer to a DELETE. *)
Definition no_content : Response :=
  {| status := 204; statusText := "No Content"; payload := None |}.

Definition title_required : Response :=
  {| status := 400; statusText := "Bad Request";
     payload := Some (VObject [("error", VString "title is required")]) |}.

(** A failure whose body is no JSON text, over a transport without
    reason phrases (HTTP/2 has none). *)
Definition bare_failure : Response :=
  {| status := 502; statusText := ""; payload := None |}.

(** A failure whose [error] field is the empty string. *)
Definition empty_error : Response :=
  {| status := 400; statusText := "Bad Request";
     payload := Some (VObject [("error", VString "");
                               ("message", VString "title is required")]) |}.

(** A network that is down: every call is rejected. *)
Definition offline : Net :=
  {| respond := λ _ _, Rejected TypeError; calls := [] |}.

(** Failures whose body is JSON, but no object with a usable [error]. *)
Definition null_failure : Response :=
  {| status := 500; statusText := "Internal Server Error";
     payload := Some VNull |}.

Definition nested_error : Response :=
  {| status := 422; statusText := "Unprocessable Entity";
     payload := Some (VObject [("error",
                   VObject [("code", VNumber (Int 7));
                            ("detail", VString "title is required")])]) |}.

(** A page template with every element app.js looks up. *)
Definition hidden_overlay : Dom.Element :=
  {| Dom.tagName := "div"; Dom.classList := ["modal-overlay"; "hidden"];
     Dom.childNodes := [] |}.

Definition plain (tag : string) : Dom.Element :=
  {| Dom.tagName := tag; Dom.classList := []; Dom.childNodes := [] |}.

Definition template : gmap string Dom.Element :=
  <["modal-overlay" := hidden_overlay]>
  (<["modal-title" := plain "h3"]>
  (<["modal-body" := plain "div"]>
  (<["modal-footer" := plain "div"]>
  (<["toast-container" := plain "div"]>
  (<["loading-overlay" := plain "div"]>
  (<["loading-message" := plain "p"]>
  (<["theme-toggle" := plain "button"]> ∅))))))).

(** The page of a first visit, and of a visit that finds [light]
    stored. *)
Definition first_visit : Dom.Page := App.load template ∅ ∅.

Definition light_visit : Dom.Page := App.load template ∅ {["theme" := "light"]}.

(** A visit that finds a value stored that is neither of the two. *)
Definition sepia_visit : Dom.Page := App.load template ∅ {["theme" := "sepia"]}.

End Examples.

(** ** Examples: pages of the marketing site *)

Module SiteExamples.
Import Site.

Definition element (tag : string) (classes : list string) : Dom.Element :=
  {| Dom.tagName := tag; Dom.classList := classes; Dom.childNodes := [] |}.

(** A hero of three slides with their indicators, the first active,
    once the page has loaded. *)
Definition hero : Carousel :=
  carousel_start
    [element "div" ["carousel-slide"; "active"];
     element "div" ["carousel-slide"];
     element "div" ["carousel-slide"]]
    [element "button" ["indicator"; "active"];
     element "button" ["indicator"];
     element "button" ["indicator"]].

(** The same hero with its third indicator missing, after two clicks on
    the next control. *)
Definition short_hero : Carousel :=
  carousel_run [NextClick; NextClick]
    (carousel_start
       [element "div" ["carousel-slide"; "active"];
        element "div" ["carousel-slide"];
        element "div" ["carousel-slide"]]
       [element "button" ["indicator"; "active"];
        element "button" ["indicator"]]).

(** A gallery page: three filter buttons, a grid of four tiles one of
    which has no category, and no store grid. *)
Definition gallery : Gallery :=
  {| filterBtns :=
       [(Some "all", element "button" ["filter-btn"; "active"]);
        (Some "urns", element "button" ["filter-btn"]);
        (Some "jewelry", element "button" ["filter-btn"])];
     galleryGrid :=
       Some [{| data_category := Some "urns"; display := "" |};
             {| data_category := Some "jewelry"; display := "" |};
             {| data_category := Some "urns"; display := "" |};
             {| data_category := None; display := "" |}];
     storeGrid := None |}.

(** Its lightbox, closed; the second gallery item has no picture. *)
Definition viewer : Lightbox :=
  {| lightbox := Some (element "div" ["lightbox"]);
     lightboxImage := Some {| src := ""; alt := "" |};
     lightboxClose := true;
     galleryItems :=
       Some [Some {| src := "images/gallery/urn-1.jpg"; alt := "Oak urn" |};
             None];
     overflow := "" |}.

(** The navigation on a phone, closed. *)
Definition menu : Nav :=
  {| mobileToggle := Some (element "button" ["mobile-toggle"]);
     mainNav := Some (element "nav" ["main-nav"]);
     dropdownItems := [(true, element "li" ["has-dropdown"])];
     innerWidth := 390 |}.

End SiteExamples.

(** * Properties *)

(** ** The request helper *)

Section Request.
Import JS Api.

Variables (url : string) (method : option string) (body : value) (net : Net).

(** What [api] passes to [fetch]. *)
Let opts : RequestInit := request_opts (default_method method) (default_body body).

(** [api] calls [fetch] once, with the url and the options of lines 3-7,
    whatever the answer. *)
Lemma api_calls_fetch_once :
  calls (snd (api url method body net)) = calls net ++ [(url, opts)].
Proof.
  unfold api, fetch. cbn.
  destruct (respond net url _) as [res|e]; [destruct (negb (ok res))|]; reflexivity.
Qed.

Lemma api_on_response (res : Response) :
  respond net url opts = Fulfilled res ->
  fst (api url method body net) = if ok res then json res else failure res.
Proof.
  intros H. unfold api, fetch. cbn. fold opts. rewrite H.
  destruct (ok res); reflexivity.
Qed.

(** A call that the transport rejects is rejected with the same
    error. *)
Lemma api_on_rejection (e : exn) :
  respond net url opts = Rejected e ->
  fst (api url method body net) = Rejected e.
Proof. intros H. unfold api, fetch. cbn. fold opts. now rewrite H. Qed.

(** A response with a failure status never fulfils the promise. *)
Lemma failure_rejects (res : Response) : exists e, failure res = Rejected e.
Proof.
  unfold failure.
  destruct (Get _ "error") as [e|x]; cbn; [|eauto].
  destruct (if ToBoolean e then _ else _) as [m|x]; cbn; [|eauto].
  destruct (new_Error _) as [x|x]; cbn; eauto.
Qed.

End Request.

Section RequestProperties.
Import JS Api Examples.

(** C1.  When the response has a success status and its body is JSON
    text, the promise [api] returns is fulfilled with exactly the value
    the body parses to: nothing is added, removed or converted.  When
    the body is no JSON text (the empty body of a 204, for one) the
    promise is rejected with the [SyntaxError] of [res.json()]. *)
Theorem api_success_returns_parsed_body
    (url : string) (method : option string) (body : value) (net : Net)
    (res : Response) :
  respond net url (request_opts (default_method method) (default_body body))
    = Fulfilled res ->
  ok res = true ->
  (forall v, payload res = Some v ->
             fst (api url method body net) = Fulfilled v) /\
  (payload res = None ->
   fst (api url method body net) = Rejected SyntaxError).
Proof.
  intros Hres Hok.
  rewrite (api_on_response _ _ _ _ _ Hres), Hok. unfold json.
  split.
  - intros v Hv. now rewrite Hv.
  - intros Hnone. now rewrite Hnone.
Qed.

Lemma api_success_returns_parsed_body_witness :
  ok created = true /\
  fst (api "/api/projects" (Some "POST") draft_one (server created))
    = Fulfilled (VObject [("id", VNumber (Int 1)); ("title", VString "Draft One")]).
Proof.
  split; [reflexivity|].
  apply (api_success_returns_parsed_body _ _ _ _ created);
    reflexivity.
Defined.

(** A success status alone does not fulfil the promise: the answer to a
    DELETE, 204 with no body, rejects it. *)
Lemma api_success_without_json_counterexample :
  ok no_content = true /\
  fst (api "/api/projects/1" (Some "DELETE") VUndefined (server no_content))
    = Rejected SyntaxError /\
  ~ exists v,
      fst (api "/api/projects/1" (Some "DELETE") VUndefined (server no_content))
        = Fulfilled v.
Proof.
  split; [reflexivity|]. split; [reflexivity|]. intros [v H]. discriminate H.
Qed.

(** The message of a failure, from the parsed body. *)
Lemma failure_of_object (res : Response) (props : list (string * value)) :
  payload res = Some (VObject props) ->
  failure res =
    let e := default VUndefined (own "error" props) in
    let m := if ToBoolean e then e
             else default VUndefined (own "message" props) in
    let* x := new_Error (or_value m (VString "Request failed")) in Rejected x.
Proof.
  intros H. unfold failure, json. rewrite H. cbn.
  destruct (ToBoolean _); reflexivity.
Qed.

Lemma failure_of_no_json (res : Response) :
  payload res = None ->
  failure res =
    Rejected (Error (if String.eqb (statusText res) "" then "Request failed"
                     else statusText res)).
Proof.
  intros H. unfold failure, json. rewrite H.
  destruct (statusText res) as [|c text]; reflexivity.
Qed.

(** C2, as the code has it.  When the response has a failure status the
    promise is rejected with an [Error] whose message is chosen so: the
    [error] field of the body when that field is truthy (a string that
    is not empty, under the contract of the endpoints), else the
    [message] field when that one is truthy, and the status text when
    the body is no JSON text and the status text is not empty; where
    the chosen value is empty or missing, the message is
    ["Request failed"]. *)
Theorem api_failure_message
    (url : string) (method : option string) (body : value) (net : Net)
    (res : Response) :
  respond net url (request_opts (default_method method) (default_body body))
    = Fulfilled res ->
  ok res = false ->
  (forall props x s,
      payload res = Some (VObject props) ->
      own "error" props = Some x -> ToBoolean x = true ->
      ToString x = Some s ->
      fst (api url method body net) = Rejected (Error s)) /\
  (forall props y s,
      payload res = Some (VObject props) ->
      ToBoolean (default VUndefined (own "error" props)) = false ->
      own "message" props = Some y -> ToBoolean y = true ->
      ToString y = Some s ->
      fst (api url method body net) = Rejected (Error s)) /\
  (payload res = None -> statusText res <> "" ->
      fst (api url method body net) = Rejected (Error (statusText res))) /\
  (forall props,
      payload res = Some (VObject props) ->
      ToBoolean (default VUndefined (own "error" props)) = false ->
      ToBoolean (default VUndefined (own "message" props)) = false ->
      fst (api url method body net) = Rejected (Error "Request failed")) /\
  (payload res = None -> statusText res = "" ->
      fst (api url method body net) = Rejected (Error "Request failed")).
Proof.
  intros Hres Hok.
  rewrite (api_on_response _ _ _ _ _ Hres), Hok.
  repeat split.
  - intros props x s Hp He Hx Hs.
    rewrite (failure_of_object _ _ Hp), He. cbn.
    rewrite Hx. unfold or_value, new_Error. now rewrite Hx, Hs.
  - intros props y s Hp He Hm Hy Hs.
    rewrite (failure_of_object _ _ Hp). cbn.
    rewrite He, Hm. cbn. unfold or_value, new_Error. now rewrite Hy, Hs.
  - intros Hp Hst. rewrite (failure_of_no_json _ Hp).
    destruct (String.eqb_spec (statusText res) ""); congruence.
  - intros props Hp He Hm.
    rewrite (failure_of_object _ _ Hp). cbn.
    rewrite He. unfold or_value. now rewrite Hm.
  - intros Hp Hst. rewrite (failure_of_no_json _ Hp), Hst. reflexivity.
Qed.

Lemma api_failure_message_witness :
  ok title_required = false /\
  fst (api "/api/projects" (Some "POST") draft_one (server title_required))
    = Rejected (Error "title is required").
Proof.
  split; [reflexivity|].
  refine (proj1 (api_failure_message "/api/projects" (Some "POST") draft_one
                   (server title_required) title_required eq_refl eq_refl)
            _ (VString "title is required") _ eq_refl eq_refl eq_refl eq_refl).
Defined.

(** C2 as the specification words it fails twice: an [error] field that
    is the empty string is passed over for the [message] field, and an
    empty status text is replaced by ["Request failed"]. *)
Lemma api_failure_message_counterexample :
  (ok empty_error = false /\
   (exists props, payload empty_error = Some (VObject props) /\
                  own "error" props = Some (VString "")) /\
   fst (api "/api/projects" (Some "POST") draft_one (server empty_error))
     = Rejected (Error "title is required") /\
   Rejected (A := value) (Error "title is required") <> Rejected (Error "")) /\
  (ok bare_failure = false /\
   payload bare_failure = None /\
   fst (api "/api/projects" None VUndefined (server bare_failure))
     = Rejected (Error "Request failed") /\
   Rejected (A := value) (Error "Request failed")
     <> Rejected (Error (statusText bare_failure))).
Proof.
  repeat split; try reflexivity; try discriminate.
  eexists. split; reflexivity.
Qed.

(** Every truthy value of the model has a JSON text. *)
Lemma truthy_has_json (b : value) :
  ToBoolean b = true -> exists text, JSON_stringify b = Some text.
Proof.
  destruct b as [| |[|]|[|neg|z]| | |]; cbn; intros H;
    try discriminate; eexists; reflexivity.
Qed.

(** Line 7: the options with and without a body. *)
Lemma request_opts_truthy (m : string) (b : value) :
  ToBoolean b = true ->
  request_opts m (default_body b) =
    {| Api.method := m;
       headers := [("Content-Type", "application/json")];
       Api.body := JSON_stringify b |}.
Proof.
  intros H. replace (default_body b) with b
    by (destruct b; cbn in H; try discriminate; reflexivity).
  unfold request_opts. now rewrite H.
Qed.

Lemma request_opts_falsy (m : string) (b : value) :
  ToBoolean b = false ->
  request_opts m (default_body b) =
    {| Api.method := m;
       headers := [("Content-Type", "application/json")];
       Api.body := None |}.
Proof.
  intros H. unfold request_opts.
  replace (ToBoolean (default_body b)) with false
    by (destruct b; cbn in *; try discriminate; auto).
  reflexivity.
Qed.

(** C3, as the code has it.  When the body argument is truthy, [api]
    calls [fetch] with the JSON text of that body as the request body
    and with the header [Content-Type: application/json]. *)
Theorem api_sends_truthy_body_as_json
    (url : string) (method : option string) (body : value) (net : Net) :
  ToBoolean body = true ->
  exists text,
    JSON_stringify body = Some text /\
    calls (snd (api url method body net)) =
      calls net ++
      [(url, {| Api.method := default_method method;
                headers := [("Content-Type", "application/json")];
                Api.body := Some text |})].
Proof.
  intros Hb. destruct (truthy_has_json _ Hb) as [text Htext].
  exists text. split; [assumption|].
  now rewrite api_calls_fetch_once, (request_opts_truthy _ _ Hb), Htext.
Qed.

Lemma api_sends_truthy_body_as_json_witness :
  ToBoolean draft_one = true /\
  exists text,
    JSON_stringify draft_one = Some text /\
    calls (snd (api "/api/projects" (Some "POST") draft_one (server created))) =
      calls (server created) ++
      [("/api/projects",
        {| Api.method := "POST";
           headers := [("Content-Type", "application/json")];
           Api.body := Some text |})].
Proof.
  split; [reflexivity|].
  apply (api_sends_truthy_body_as_json "/api/projects" (Some "POST")).
  reflexivity.
Defined.

(** C3 as the specification words it fails: [false] is a body that is
    present and not [null], and the request goes out without a body. *)
Lemma api_sends_body_counterexample :
  VBool false <> VNull /\
  calls (snd (api "/api/flags" (Some "PUT") (VBool false) (server created))) =
    [("/api/flags",
      {| Api.method := "PUT";
         headers := [("Content-Type", "application/json")];
         Api.body := None |})] /\
  JSON_stringify (VBool false) = Some "false".
Proof. repeat split; [discriminate]. Qed.

(** C9.  When the body argument is falsy ([null], [0], [false], the
    empty string, also [undefined] and [NaN]), [api] calls [fetch]
    without a request body, whatever the method: whether a body is sent
    is decided by the truthiness of the argument. *)
Theorem api_falsy_body_sends_no_body
    (url : string) (method : option string) (body : value) (net : Net) :
  ToBoolean body = false ->
  calls (snd (api url method body net)) =
    calls net ++
    [(url, {| Api.method := default_method method;
              headers := [("Content-Type", "application/json")];
              Api.body := None |})].
Proof.
  intros Hb. now rewrite api_calls_fetch_once, (request_opts_falsy _ _ Hb).
Qed.

Lemma api_falsy_body_sends_no_body_witness :
  ToBoolean (VNumber (Int 0)) = false /\
  calls (snd (api "/api/counters" (Some "PATCH") (VNumber (Int 0))
                (server created))) =
    [("/api/counters",
      {| Api.method := "PATCH";
         headers := [("Content-Type", "application/json")];
         Api.body := None |})].
Proof.
  split; [reflexivity|].
  exact (api_falsy_body_sends_no_body "/api/counters" (Some "PATCH")
           (VNumber (Int 0)) (server created) eq_refl).
Defined.

(** The falsy values of the model. *)
Lemma falsy_values :
  Forall (λ b, ToBoolean b = false)
    [VNull; VNumber (Int 0); VBool false; VString ""; VUndefined; VNumber NaN].
Proof. repeat constructor. Qed.

(** A body is sent exactly when the argument is truthy. *)
Lemma api_body_iff_truthy
    (url : string) (method : option string) (body : value) (net : Net) :
  (exists text, calls (snd (api url method body net)) =
      calls net ++
      [(url, {| Api.method := default_method method;
                headers := [("Content-Type", "application/json")];
                Api.body := Some text |})])
  <-> ToBoolean body = true.
Proof.
  rewrite api_calls_fetch_once. split.
  - intros [text H]. destruct (ToBoolean body) eqn:Hb; [reflexivity|].
    rewrite (request_opts_falsy _ _ Hb) in H.
    apply app_inv_head in H. discriminate.
  - intros Hb. destruct (truthy_has_json _ Hb) as [text Htext].
    exists text. now rewrite (request_opts_truthy _ _ Hb), Htext.
Qed.

End RequestProperties.

(** ** Scripts on the page *)

Section Scripts.
Import JS Dom App View.

Lemma set_elements_same (p : Page) : set_elements (elements p) p = p.
Proof. now destruct p. Qed.

(** Writing to an element that is there... *)
Lemma at_id_found (id : string) (f : Element -> Element)
    (p : Page) (e : Element) :
  elements p !! id = Some e ->
  at_id id f p = (Fulfilled tt, set_elements (<[id := f e]> (elements p)) p).
Proof.
  intros H. unfold at_id, seq, getElementById, on_element.
  rewrite H. cbv beta iota. rewrite H. reflexivity.
Qed.

(** ... and to one that is not: a [TypeError], and the page as it
    was. *)
Lemma at_id_missing (id : string) (f : Element -> Element) (p : Page) :
  elements p !! id = None -> at_id id f p = (Rejected TypeError, p).
Proof.
  intros H. unfold at_id, seq, getElementById, on_element. now rewrite H.
Qed.

Lemma seq_at_id_found {A : Type} (id : string) (f : Element -> Element)
    (k : unit -> Script A) (p : Page) (e : Element) :
  elements p !! id = Some e ->
  seq (at_id id f) k p = k tt (set_elements (<[id := f e]> (elements p)) p).
Proof. intros H. unfold seq. now rewrite (at_id_found _ _ _ _ H). Qed.

Lemma or_string_empty (f : option string) : or_string f "" = default "" f.
Proof. destruct f as [[|c x]|]; reflexivity. Qed.

Lemma openModal_page (title bodyHtml : string) (footerHtml : option string)
    (p : Page) (et eb ef eo : Element) :
  elements p !! "modal-title" = Some et ->
  elements p !! "modal-body" = Some eb ->
  elements p !! "modal-footer" = Some ef ->
  elements p !! "modal-overlay" = Some eo ->
  openModal title bodyHtml footerHtml p =
    (Fulfilled tt,
     set_elements
       (<["modal-overlay" := classList_remove "hidden" eo]>
        (<["modal-footer" := set_innerHTML (default "" footerHtml) ef]>
         (<["modal-body" := set_innerHTML bodyHtml eb]>
          (<["modal-title" := set_textContent title et]> (elements p))))) p).
Proof.
  intros Ht Hb Hf Ho. unfold openModal.
  rewrite (seq_at_id_found _ _ _ _ et Ht).
  rewrite (seq_at_id_found _ _ _ _ eb) by (cbn; now rewrite lookup_insert_ne).
  rewrite (seq_at_id_found _ _ _ _ ef) by (cbn; now rewrite !lookup_insert_ne).
  rewrite (at_id_found _ _ _ eo) by (cbn; now rewrite !lookup_insert_ne).
  now rewrite or_string_empty.
Qed.

Lemma closeModal_page (p : Page) (eo : Element) :
  elements p !! "modal-overlay" = Some eo ->
  closeModal p =
    (Fulfilled tt,
     set_elements (<["modal-overlay" := classList_add "hidden" eo]> (elements p)) p).
Proof. intros Ho. unfold closeModal. now rewrite (at_id_found _ _ _ eo Ho). Qed.

Lemma classList_add_present (t : string) (e : Element) :
  t ∈ classList e -> classList_add t e = e.
Proof.
  intros H. unfold classList_add. rewrite bool_decide_eq_true_2 by assumption.
  now destruct e.
Qed.

Lemma classList_add_elem (t : string) (e : Element) :
  t ∈ classList (classList_add t e).
Proof.
  unfold classList_add. cbn. case_bool_decide; [assumption|].
  apply elem_of_app. right. apply list_elem_of_singleton. reflexivity.
Qed.

Lemma classList_remove_elem (t : string) (e : Element) :
  t ∉ classList (classList_remove t e).
Proof.
  unfold classList_remove. cbn. rewrite list_elem_of_filter. now intros [H _].
Qed.

(** Closing a dialog that is closed changes nothing. *)
Lemma closeModal_closed (p : Page) (eo : Element) :
  elements p !! "modal-overlay" = Some eo ->
  "hidden" ∈ classList eo ->
  closeModal p = (Fulfilled tt, p).
Proof.
  intros Ho Hh. rewrite (closeModal_page _ _ Ho).
  rewrite (classList_add_present _ _ Hh), (insert_id _ _ _ Ho).
  now rewrite set_elements_same.
Qed.

End Scripts.

(** ** The modal dialog *)

Section Modal.
Import JS Dom App View.

Lemma click_backdrop (ancestors : list string) (p : Page) :
  "theme-toggle" ∉ ancestors ->
  click ("modal-overlay" :: ancestors) p = listener closeModal p.
Proof.
  intros H. unfold click.
  rewrite bool_decide_eq_false_2; [reflexivity|].
  intros [Heq|Hin]%elem_of_cons; [discriminate|contradiction].
Qed.

Lemma keydown_escape (p : Page) : keydown "Escape" p = listener closeModal p.
Proof. reflexivity. Qed.

Lemma modal_step_close (p : Page) (op : ModalOp) :
  match op with OpenModal _ _ _ => False | _ => True end ->
  modal_step p op = listener closeModal p.
Proof.
  destruct op; cbn; intros H; [contradiction|reflexivity..].
Qed.

(** The operations write to elements that are there and add or remove
    none. *)
Ltac still_has_modal :=
  unfold has_modal; cbn;
  rewrite ?lookup_insert; repeat split; repeat case_decide; eauto.

Lemma has_modal_step (p : Page) (op : ModalOp) :
  has_modal p -> has_modal (modal_step p op).
Proof.
  intros ([et Ht] & [eb Hb] & [ef Hf] & [eo Ho]).
  destruct op as [t b f| | |];
    [|rewrite modal_step_close by exact I..]; cbn [modal_step];
    unfold listener.
  - rewrite (openModal_page _ _ _ _ _ _ _ _ Ht Hb Hf Ho). still_has_modal.
  - rewrite (closeModal_page _ _ Ho). still_has_modal.
  - rewrite (closeModal_page _ _ Ho). still_has_modal.
  - rewrite (closeModal_page _ _ Ho). still_has_modal.
Qed.

Lemma visible_after_open (p : Page) (t b : string) (f : option string) :
  has_modal p ->
  visible_dialogs (listener (openModal t b f) p) =
    [{| shown_title := text_nodes t;
        shown_body := markup_nodes b;
        shown_footer := markup_nodes (default "" f) |}].
Proof.
  intros ([et Ht] & [eb Hb] & [ef Hf] & [eo Ho]).
  unfold listener. rewrite (openModal_page _ _ _ _ _ _ _ _ Ht Hb Hf Ho).
  unfold visible_dialogs, children_of. cbn.
  rewrite lookup_insert_eq.
  rewrite bool_decide_eq_false_2 by apply classList_remove_elem.
  rewrite !(lookup_insert_ne _ "modal-overlay") by discriminate.
  rewrite lookup_insert_eq.
  rewrite !(lookup_insert_ne _ "modal-footer") by discriminate.
  rewrite lookup_insert_eq.
  rewrite !(lookup_insert_ne _ "modal-body") by discriminate.
  rewrite lookup_insert_eq.
  reflexivity.
Qed.

Lemma visible_after_close (p : Page) :
  visible_dialogs (listener closeModal p) = [].
Proof.
  unfold listener.
  destruct (elements p !! "modal-overlay") as [eo|] eqn:Ho.
  - rewrite (closeModal_page _ _ Ho). unfold visible_dialogs. cbn.
    rewrite lookup_insert_eq.
    now rewrite bool_decide_eq_true_2 by apply classList_add_elem.
  - unfold closeModal. rewrite (at_id_missing _ _ _ Ho).
    unfold visible_dialogs. cbn. now rewrite Ho.
Qed.

(** The page follows the state machine of the specification. *)
Lemma modal_step_machine (p : Page) (op : ModalOp) :
  has_modal p ->
  visible_dialogs (modal_step p op) = machine_step (visible_dialogs p) op.
Proof.
  intros H. destruct op as [t b f| | |].
  - now apply visible_after_open.
  - rewrite modal_step_close by exact I. apply visible_after_close.
  - rewrite modal_step_close by exact I. apply visible_after_close.
  - rewrite modal_step_close by exact I. apply visible_after_close.
Qed.

Lemma modal_run_machine (ops : list ModalOp) (p : Page) :
  has_modal p ->
  visible_dialogs (modal_run ops p) = foldl machine_step (visible_dialogs p) ops.
Proof.
  revert p. induction ops as [|op ops IH]; intros p H; [reflexivity|].
  cbn. unfold modal_run in IH. rewrite IH by now apply has_modal_step.
  now rewrite modal_step_machine.
Qed.

Lemma machine_at_most_one (ops : list ModalOp) (st : list Dialog) :
  (length st <= 1)%nat -> (length (foldl machine_step st ops) <= 1)%nat.
Proof.
  revert st. induction ops as [|op ops IH]; intros st H; [assumption|].
  cbn. apply IH. destruct op; cbn; lia.
Qed.

Lemma visible_at_most_one (p : Page) : (length (visible_dialogs p) <= 1)%nat.
Proof.
  unfold visible_dialogs. destruct (elements p !! _); [|cbn; lia].
  case_bool_decide; cbn; lia.
Qed.

(** C4.  Whatever sequence of openings, closings, backdrop clicks and
    Escape presses a page with the dialog goes through, at most one
    dialog is on display; after [openModal] and a second [openModal]
    exactly one is, and it shows the title, the body and the footer
    (none when left out) of the second call. *)
Theorem at_most_one_dialog (p : Page) :
  has_modal p ->
  (forall ops : list ModalOp,
      (length (visible_dialogs (modal_run ops p)) <= 1)%nat) /\
  (forall (t1 b1 : string) (f1 : option string)
          (t2 b2 : string) (f2 : option string),
      visible_dialogs (modal_run [OpenModal t1 b1 f1; OpenModal t2 b2 f2] p) =
        [{| shown_title := text_nodes t2;
            shown_body := markup_nodes b2;
            shown_footer := markup_nodes (default "" f2) |}]).
Proof.
  intros H. split.
  - intros ops. rewrite modal_run_machine by assumption.
    apply machine_at_most_one, visible_at_most_one.
  - intros. now rewrite modal_run_machine.
Qed.

(** C5.  While no dialog is on display, a click on the backdrop and a
    press of Escape each leave the page exactly as it was, and so does
    [closeModal] itself. *)
Theorem dismissal_when_closed_changes_nothing
    (p : Page) (ancestors : list string) :
  visible_dialogs p = [] ->
  "theme-toggle" ∉ ancestors ->
  click ("modal-overlay" :: ancestors) p = p /\
  keydown "Escape" p = p /\
  listener closeModal p = p.
Proof.
  intros Hv Ha. rewrite click_backdrop, keydown_escape by assumption.
  assert (listener closeModal p = p) as ->; [|auto].
  unfold listener, visible_dialogs in *.
  destruct (elements p !! "modal-overlay") as [eo|] eqn:Ho.
  - case_bool_decide; [|discriminate].
    now rewrite (closeModal_closed _ _ Ho).
  - unfold closeModal. now rewrite (at_id_missing _ _ _ Ho).
Qed.

End Modal.

Section ModalWitnesses.
Import Dom App View Examples.

Lemma first_visit_has_modal : has_modal first_visit.
Proof. repeat split; vm_compute; eexists; reflexivity. Defined.

Lemma at_most_one_dialog_witness :
  has_modal first_visit /\
  (length (visible_dialogs
     (modal_run [OpenModal "Rename" "<input>" None; EscapeKey;
                 OpenModal "Delete" "<p>Sure?</p>" (Some "<button>Yes</button>")]
        first_visit)) <= 1)%nat /\
  visible_dialogs
    (modal_run [OpenModal "Rename" "<input>" (Some "<button>Save</button>");
                OpenModal "Delete" "<p>Sure?</p>" None] first_visit) =
    [{| shown_title := [TextNode "Delete"];
        shown_body := [Markup "<p>Sure?</p>"];
        shown_footer := [] |}].
Proof.
  split; [exact first_visit_has_modal|].
  destruct (at_most_one_dialog first_visit first_visit_has_modal) as [H1 H2].
  split; [apply H1 | apply H2].
Defined.

Lemma dismissal_when_closed_changes_nothing_witness :
  visible_dialogs first_visit = [] /\
  click ["modal-overlay"; ""; "app"] first_visit = first_visit /\
  keydown "Escape" first_visit = first_visit /\
  listener closeModal first_visit = first_visit.
Proof.
  split; [reflexivity|].
  apply dismissal_when_closed_changes_nothing; [reflexivity|].
  intros H. repeat (apply elem_of_cons in H as [H|H]; [discriminate|]).
  now apply elem_of_nil in H.
Defined.

End ModalWitnesses.

(** ** The loading overlay *)

Section Loading.
Import JS Dom App View.

Lemma showLoading_page (message : option string) (p : Page)
    (em eo : Element) :
  elements p !! "loading-message" = Some em ->
  elements p !! "loading-overlay" = Some eo ->
  showLoading message p =
    (Fulfilled tt,
     set_elements
       (<["loading-overlay" := classList_remove "hidden" eo]>
        (<["loading-message" :=
             set_textContent (default "Processing..." message) em]>
           (elements p))) p).
Proof.
  intros Hm Ho. unfold showLoading.
  rewrite (seq_at_id_found _ _ _ _ em Hm).
  now rewrite (at_id_found _ _ _ eo) by (cbn; now rewrite lookup_insert_ne).
Qed.

(** The overlay shows the message of the last call. *)
Lemma showLoading_twice (m1 m2 : option string) (p : Page) (em eo : Element) :
  elements p !! "loading-message" = Some em ->
  elements p !! "loading-overlay" = Some eo ->
  children_of "loading-message"
    (listener (showLoading m2) (listener (showLoading m1) p)) =
    text_nodes (default "Processing..." m2).
Proof.
  intros Hm Ho. unfold listener at 2.
  rewrite (showLoading_page _ _ _ _ Hm Ho). unfold listener.
  erewrite showLoading_page; cbn;
    [|now rewrite lookup_insert_ne, lookup_insert_eq
     |now rewrite lookup_insert_eq].
  unfold children_of. cbn.
  now rewrite lookup_insert_ne, lookup_insert_eq.
Qed.

End Loading.

(** ** The theme *)

Section Theme.
Import JS Dom App View.

Lemma load_page (template : gmap string Element)
    (attributes storage : gmap string string) :
  load template attributes storage =
    {| elements := template;
       root := <["data-theme" := or_string (storage !! "theme") "dark"]> attributes;
       localStorage := storage;
       timers := []; now := 0; next_uid := 0;
       toggle_listeners :=
         match template !! "theme-toggle" with
         | Some _ => 1
         | None => 0
         end |}.
Proof.
  unfold load, listener, on_DOMContentLoaded, seq, getItem, setAttribute,
    getElementById, add_toggle_listener. cbn.
  destruct (template !! "theme-toggle"); reflexivity.
Qed.

Lemma toggle_click_page (p : Page) :
  listener on_toggle_click p =
    {| elements := elements p;
       root := <["data-theme" := flipped (theme p)]> (root p);
       localStorage := <["theme" := flipped (theme p)]> (localStorage p);
       timers := timers p; now := now p; next_uid := next_uid p;
       toggle_listeners := toggle_listeners p |}.
Proof. reflexivity. Qed.

(** The listeners of the document leave the theme, the storage and the
    listeners of the toggle alone. *)
Lemma document_click_frame (t : string) (p : Page) :
  root (listener (on_document_click t) p) = root p /\
  localStorage (listener (on_document_click t) p) = localStorage p /\
  toggle_listeners (listener (on_document_click t) p) = toggle_listeners p.
Proof.
  unfold listener, on_document_click.
  destruct (String.eqb t "modal-overlay"); [|now cbn].
  unfold closeModal.
  destruct (elements p !! "modal-overlay") eqn:H;
    [rewrite (at_id_found _ _ _ _ H)|rewrite (at_id_missing _ _ _ H)]; now cbn.
Qed.

Lemma click_toggle (path : list string) (p : Page) :
  toggle_listeners p = 1%nat ->
  "theme-toggle" ∈ path ->
  theme (click path p) = Some (flipped (theme p)) /\
  persisted (click path p) = Some (flipped (theme p)) /\
  toggle_listeners (click path p) = 1%nat.
Proof.
  intros Hn Hp.
  assert (click path p =
          listener (on_document_click (default "" (head path)))
            (listener on_toggle_click p)) as ->.
  { unfold click. rewrite bool_decide_eq_true_2 by assumption.
    now rewrite Hn. }
  unfold theme at 1, persisted.
  destruct (document_click_frame (default "" (head path))
              (listener on_toggle_click p)) as (-> & -> & ->).
  rewrite toggle_click_page. cbn. now rewrite !lookup_insert_eq.
Qed.

(** C7.  At startup the theme is read from storage, [dark] when
    nothing is stored, and set as the [data-theme] attribute of the
    root element.  Every click on the toggle flips it: from [dark] to
    [light] and from [light] to [dark], sets the attribute and stores
    the new value; a reload finds the stored value and sets it
    again. *)
Theorem theme_preference
    (template : gmap string Element) (attributes storage : gmap string string)
    (path : list string) :
  is_Some (template !! "theme-toggle") ->
  "theme-toggle" ∈ path ->
  let p := load template attributes storage in
  (storage !! "theme" = None -> theme p = Some "dark") /\
  (forall v, storage !! "theme" = Some v -> v = "dark" \/ v = "light" ->
             theme p = Some v) /\
  toggle_listeners p = 1%nat /\
  (forall q, toggle_listeners q = 1%nat ->
     toggle_listeners (click path q) = 1%nat /\
     (theme q = Some "dark" ->
        theme (click path q) = Some "light" /\
        persisted (click path q) = Some "light") /\
     (theme q = Some "light" ->
        theme (click path q) = Some "dark" /\
        persisted (click path q) = Some "dark")) /\
  (forall q v, persisted q = Some v -> v = "dark" \/ v = "light" ->
               theme (reload template attributes q) = Some v).
Proof.
  intros [toggle Ht] Hp p. subst p.
  assert (forall st v, st !! "theme" = Some v -> v = "dark" \/ v = "light" ->
            theme (load template attributes st) = Some v) as Hstored.
  { intros st v Hv Hdl. rewrite load_page. unfold theme. cbn.
    rewrite lookup_insert_eq, Hv. now destruct Hdl as [-> | ->]. }
  repeat split.
  - intros Hnone. rewrite load_page. unfold theme. cbn.
    now rewrite lookup_insert_eq, Hnone.
  - apply Hstored.
  - rewrite load_page. cbn. now rewrite Ht.
  - now apply click_toggle.
  - destruct (click_toggle path q H Hp) as (-> & _). now rewrite H0.
  - destruct (click_toggle path q H Hp) as (_ & -> & _). now rewrite H0.
  - destruct (click_toggle path q H Hp) as (-> & _). now rewrite H0.
  - destruct (click_toggle path q H Hp) as (_ & -> & _). now rewrite H0.
  - intros q v Hv Hdl. unfold reload. now apply Hstored.
Qed.

(** C10.  Nothing keeps the theme within [dark] and [light]: at startup
    a stored string that is not empty is set as it is, and a click on
    the toggle moves every theme other than [dark], those two apart and
    a missing attribute as well, to [dark]. *)
Theorem theme_not_confined
    (template : gmap string Element) (attributes storage : gmap string string)
    (v : string) (q : Page) (path : list string) :
  storage !! "theme" = Some v -> v <> "" ->
  toggle_listeners q = 1%nat -> "theme-toggle" ∈ path ->
  theme q <> Some "dark" ->
  theme (load template attributes storage) = Some v /\
  theme (click path q) = Some "dark" /\
  persisted (click path q) = Some "dark".
Proof.
  intros Hv Hne Hn Hp Hq. split.
  - rewrite load_page. unfold theme. cbn. rewrite lookup_insert_eq, Hv.
    destruct v; [contradiction|reflexivity].
  - destruct (click_toggle path q Hn Hp) as (-> & -> & _).
    assert (flipped (theme q) = "dark") as ->; [|auto].
    unfold flipped. destruct (theme q) as [c|]; [|reflexivity].
    destruct (String.eqb_spec c "dark"); [congruence|reflexivity].
Qed.

End Theme.

Section ThemeWitnesses.
Import Dom App View Examples.

Lemma toggle_in_template : is_Some (template !! "theme-toggle").
Proof. vm_compute. eexists. reflexivity. Defined.

Lemma toggle_on_path : "theme-toggle" ∈ ["icon"; "theme-toggle"; "header"].
Proof. apply elem_of_cons. right. apply elem_of_cons. now left. Defined.

Lemma theme_preference_witness :
  let path := ["icon"; "theme-toggle"; "header"] in
  is_Some (template !! "theme-toggle") /\
  "theme-toggle" ∈ path /\
  theme first_visit = Some "dark" /\
  theme light_visit = Some "light" /\
  theme (click path first_visit) = Some "light" /\
  persisted (click path first_visit) = Some "light" /\
  theme (reload template ∅ (click path first_visit)) = Some "light".
Proof.
  intros path.
  destruct (theme_preference template ∅ ∅ path toggle_in_template toggle_on_path)
    as (Hdark & _ & Hone & Hclick & Hreload).
  destruct (Hclick first_visit Hone) as (_ & Hflip & _).
  destruct (Hflip (Hdark eq_refl)) as [Hshown Hstored].
  exact (conj toggle_in_template (conj toggle_on_path (conj (Hdark eq_refl)
           (conj eq_refl (conj Hshown (conj Hstored
              (Hreload _ _ Hstored (or_intror eq_refl)))))))).
Defined.

Lemma theme_not_confined_witness :
  theme sepia_visit = Some "sepia" /\
  theme (click ["theme-toggle"] sepia_visit) = Some "dark" /\
  persisted (click ["theme-toggle"] sepia_visit) = Some "dark".
Proof.
  apply (theme_not_confined template ∅ {["theme" := "sepia"]} "sepia"
           sepia_visit ["theme-toggle"]).
  - reflexivity.
  - discriminate.
  - reflexivity.
  - apply elem_of_cons. now left.
  - discriminate.
Defined.

End ThemeWitnesses.

(** ** Escaping *)

Section Escaping.
Import Dom App View Observe.

Lemma append_empty_r (s : string) : s +:+ "" = s.
Proof.
  induction s as [|c s IH]; [reflexivity|].
  change (String c (s +:+ "") = String c s). now rewrite IH.
Qed.

Lemma escHtml_escape (str : string) : escHtml str = escape false str.
Proof.
  unfold escHtml, innerHTML, set_textContent, text_nodes. cbn.
  destruct str as [|c str]; [reflexivity|].
  cbn [String.eqb foldr serialize]. apply append_empty_r.
Qed.

Lemma escape_text_cons (c : ascii) (rest : string) :
  escape false (String c rest) =
    if Ascii.eqb c "&" then "&amp;" +:+ escape false rest
    else if Ascii.eqb c "<" then "&lt;" +:+ escape false rest
    else if Ascii.eqb c ">" then "&gt;" +:+ escape false rest
    else if Ascii.eqb c "194" then
      match rest with
      | String d rest' =>
          if Ascii.eqb d "160" then "&nbsp;" +:+ escape false rest'
          else String c (escape false rest)
      | EmptyString => String c ""
      end
    else String c (escape false rest).
Proof. reflexivity. Qed.

(** *** Escaping loses nothing *)

(** Undoing the four references and a plain byte. *)
Lemma unescape_amp (s : string) :
  unescape 0 ("&amp;" +:+ s) = (λ t, "&" +:+ t) <$> unescape 0 s.
Proof.
  change (unescape 0 ("&amp;" +:+ s))
    with (match unescape 0 s with
          | Some shown => Some ("&" +:+ shown)
          | None => None
          end).
  now destruct (unescape 0 s).
Qed.

Lemma unescape_lt (s : string) :
  unescape 0 ("&lt;" +:+ s) = (λ t, "<" +:+ t) <$> unescape 0 s.
Proof.
  change (unescape 0 ("&lt;" +:+ s))
    with (match unescape 0 s with
          | Some shown => Some ("<" +:+ shown)
          | None => None
          end).
  now destruct (unescape 0 s).
Qed.

Lemma unescape_gt (s : string) :
  unescape 0 ("&gt;" +:+ s) = (λ t, ">" +:+ t) <$> unescape 0 s.
Proof.
  change (unescape 0 ("&gt;" +:+ s))
    with (match unescape 0 s with
          | Some shown => Some (">" +:+ shown)
          | None => None
          end).
  now destruct (unescape 0 s).
Qed.

Lemma unescape_nbsp (s : string) :
  unescape 0 ("&nbsp;" +:+ s) = (λ t, nbsp +:+ t) <$> unescape 0 s.
Proof.
  change (unescape 0 ("&nbsp;" +:+ s))
    with (match unescape 0 s with
          | Some shown => Some (nbsp +:+ shown)
          | None => None
          end).
  now destruct (unescape 0 s).
Qed.

Lemma unescape_plain (c : ascii) (s : string) :
  c <> "<"%char -> c <> "&"%char ->
  unescape 0 (String c s) = String c <$> unescape 0 s.
Proof.
  intros Hlt Hamp. cbn [unescape].
  destruct (Ascii.eqb_spec c "<"); [contradiction|].
  destruct (Ascii.eqb_spec c "&"); [contradiction|].
  now destruct (unescape 0 s).
Qed.

(** Escaped text is undone to the text it came from: at a string and
    at the string with one more byte in front, since a no-break space
    takes two. *)
Lemma escape_unescape (s : string) :
  unescape 0 (escape false s) = Some s /\
  forall c, unescape 0 (escape false (String c s)) = Some (String c s).
Proof.
  induction s as [|d s [IHs IHd]].
  - split; [reflexivity|]. intros c. rewrite escape_text_cons.
    destruct (Ascii.eqb_spec c "&") as [->|Hamp]; [reflexivity|].
    destruct (Ascii.eqb_spec c "<") as [->|Hlt]; [reflexivity|].
    destruct (Ascii.eqb_spec c ">") as [->|Hgt]; [reflexivity|].
    destruct (Ascii.eqb c "194"); now rewrite unescape_plain.
  - split; [apply IHd|]. intros c. rewrite escape_text_cons.
    destruct (Ascii.eqb_spec c "&") as [->|Hamp].
    { now rewrite unescape_amp, (IHd d). }
    destruct (Ascii.eqb_spec c "<") as [->|Hlt].
    { now rewrite unescape_lt, (IHd d). }
    destruct (Ascii.eqb_spec c ">") as [->|Hgt].
    { now rewrite unescape_gt, (IHd d). }
    destruct (Ascii.eqb_spec c "194") as [->|Hc].
    + destruct (Ascii.eqb_spec d "160") as [->|Hd].
      * now rewrite unescape_nbsp, IHs.
      * rewrite unescape_plain by discriminate. now rewrite (IHd d).
    + rewrite unescape_plain by assumption. now rewrite (IHd d).
Qed.

(** *** Escaped text parsed as the content of an element *)













Lemma occurs_append (c : ascii) (a b : string) :
  occurs c (a +:+ b) = occurs c a || occurs c b.
Proof.
  induction a as [|d a IH]; [reflexivity|].
  change (occurs c (String d (a +:+ b)) = occurs c (String d a) || occurs c b).
  cbn [occurs]. now rewrite IH, orb_assoc.
Qed.




End Escaping.

(** ** Toasts *)

Section Toasts.
Import JS Dom App View.

Lemma filter_agree {A : Type} (P Q : A -> Prop)
    `{!forall x, Decision (P x)} `{!forall x, Decision (Q x)} (l : list A) :
  Forall (λ x, P x <-> Q x) l -> filter P l = filter Q l.
Proof.
  induction 1 as [|x l Hx Hl IH]; [reflexivity|].
  rewrite !filter_cons, IH.
  destruct (decide (P x)), (decide (Q x)); tauto.
Qed.

Lemma enqueue_elem (t t' : Timer) (l : list Timer) :
  t' ∈ enqueue t l <-> t' = t \/ t' ∈ l.
Proof.
  induction l as [|x l IH]; cbn.
  - rewrite list_elem_of_singleton, elem_of_nil. tauto.
  - destruct (due x <=? due t); rewrite !elem_of_cons; [rewrite IH|]; tauto.
Qed.

Lemma children_of_remove (uid : nat) (id : string) (p : Page) :
  children_of id (remove uid p) =
    filter (λ n, node_is uid n = false) (children_of id p).
Proof.
  unfold children_of, remove. cbn. rewrite lookup_fmap.
  destruct (elements p !! id); reflexivity.
Qed.

Lemma filter_keep {A : Type} (P : A -> Prop) `{!forall x, Decision (P x)}
    (l : list A) :
  Forall P l -> filter P l = l.
Proof.
  induction 1 as [|x l Hx Hl IH]; [reflexivity|].
  now rewrite filter_cons_True, IH.
Qed.

Lemma Forall_kept {A : Type} (P Q : A -> Prop) `{!forall x, Decision (Q x)}
    (l : list A) :
  Forall P l -> Forall P (filter Q l).
Proof.
  rewrite !Forall_forall. intros Hall x [_ Hin]%list_elem_of_filter. auto.
Qed.

Lemma removed_by_cons (t : Timer) (ts : list Timer) (n : Node) :
  removed_by (t :: ts) n <-> node_is (target t) n = true \/ removed_by ts n.
Proof. unfold removed_by. apply Exists_cons. Qed.

(** Running callbacks removes the nodes they name and no other. *)
Lemma children_of_callbacks (id : string) (ts : list Timer) (p : Page) :
  children_of id (foldl (λ q t, run_callback (callback t) q) p ts) =
    filter (λ n, ¬ removed_by ts n) (children_of id p).
Proof.
  revert p. induction ts as [|t ts IH]; intros p; cbn [foldl].
  - symmetry. apply filter_keep, Forall_forall. intros n _ H.
    now apply Exists_nil in H.
  - rewrite IH.
    replace (run_callback (callback t) p) with (remove (target t) p)
      by (unfold target; now destruct (callback t)).
    rewrite children_of_remove, list_filter_filter.
    apply list_filter_iff. intros n. rewrite removed_by_cons.
    destruct (node_is (target t) n); intuition congruence.
Qed.

Lemma children_of_advance (id : string) (dt : Z) (p : Page) :
  children_of id (advance dt p) =
    filter (λ n, ¬ removed_by (fired dt p) n) (children_of id p).
Proof. unfold advance. now rewrite children_of_callbacks. Qed.

Lemma showToast_page (message : string) (type : option string)
    (p : Page) (c : Element) :
  elements p !! "toast-container" = Some c ->
  showToast message type p =
    (Fulfilled tt,
     {| elements :=
          <["toast-container" :=
              append_node (toast_node (next_uid p) message type) c]> (elements p);
        root := root p; localStorage := localStorage p;
        timers := enqueue {| due := now p + 4000;
                             callback := RemoveNode (next_uid p) |} (timers p);
        now := now p; next_uid := S (next_uid p);
        toggle_listeners := toggle_listeners p |}).
Proof.
  intros H. unfold showToast, seq, getElementById, appendChild, on_element,
    setTimeout.
  rewrite H. cbv beta iota. rewrite H. reflexivity.
Qed.

Lemma children_after_showToast (message : string) (type : option string)
    (p : Page) (c : Element) (id : string) :
  elements p !! "toast-container" = Some c ->
  children_of id (snd (showToast message type p)) =
    children_of id p ++
    (if decide (id = "toast-container")
     then [toast_node (next_uid p) message type] else []).
Proof.
  intros H. rewrite (showToast_page _ _ _ _ H). unfold children_of. cbn.
  destruct (decide (id = "toast-container")) as [->|Hne].
  - now rewrite lookup_insert_eq, H.
  - rewrite lookup_insert_ne by congruence. now rewrite app_nil_r.
Qed.

(** Which timers have come due after a [showToast]. *)
Lemma fired_after_showToast (message : string) (type : option string)
    (p : Page) (c : Element) (dt : Z) (t : Timer) :
  elements p !! "toast-container" = Some c ->
  t ∈ fired dt (snd (showToast message type p)) <->
  (t = {| due := now p + 4000; callback := RemoveNode (next_uid p) |} /\
   4000 <= dt) \/
  t ∈ fired dt p.
Proof.
  intros H. rewrite (showToast_page _ _ _ _ H). unfold fired. cbn.
  rewrite !list_elem_of_filter, enqueue_elem. split.
  - intros [Hdue [->|Hin]]; [left|right]; cbn in *; split; auto; lia.
  - intros [[-> Hdt]|[Hdue Hin]]; cbn; split; auto; lia.
Qed.

Lemma node_is_below (bound : nat) (n : Node) :
  uid_below bound n -> node_is bound n = false.
Proof.
  destruct n as [| |u tag cl ch]; cbn; try reflexivity.
  intros H. apply Nat.eqb_neq. lia.
Qed.

Lemma wf_children (id : string) (p : Page) :
  wf p -> Forall (uid_below (next_uid p)) (children_of id p).
Proof.
  intros [Hn _]. unfold children_of.
  destruct (elements p !! id) as [e|] eqn:He; [|constructor].
  exact (Hn id e He).
Qed.

Section OneToast.

Variables (p : Page) (c : Element) (message : string) (type : option string).
Hypothesis Hwf : wf p.
Hypothesis Hc : elements p !! "toast-container" = Some c.

Let u : nat := next_uid p.
Let p1 : Page := snd (showToast message type p).

(** The toast apart, the page is at every moment what it would have
    been without the toast. *)
Lemma toast_frame (dt : Z) (id : string) :
  filter (λ n, node_is u n = false) (children_of id (advance dt p1)) =
    children_of id (advance dt p).
Proof.
  subst p1.
  rewrite !children_of_advance, (children_after_showToast _ _ _ _ _ Hc).
  rewrite list_filter_filter, filter_app.
  replace (filter _ (if decide (id = "toast-container") then _ else _))
    with (@nil Node).
  2:{ destruct (decide _); [|reflexivity].
      rewrite filter_cons_False; [reflexivity|].
      intros [Hno _]. cbn in Hno. rewrite Nat.eqb_refl in Hno. discriminate. }
  rewrite app_nil_r. apply filter_agree.
  eapply Forall_impl; [apply (wf_children id p Hwf)|].
  intros n Hbelow. cbn beta. apply node_is_below in Hbelow. fold u in Hbelow.
  split.
  - intros [_ Hkept] Hrm. apply Hkept.
    apply Exists_exists in Hrm as (t & Hin & Ht).
    apply Exists_exists. exists t. split; [|exact Ht].
    apply (fired_after_showToast _ _ _ _ _ _ Hc). now right.
  - intros Hkept. split; [exact Hbelow|].
    intros (t & Hin & Ht)%Exists_exists.
    apply (fired_after_showToast _ _ _ _ _ _ Hc) in Hin as [[-> _]|Hin].
    + change (node_is u n = true) in Ht. congruence.
    + apply Hkept. apply Exists_exists. eauto.
Qed.

End OneToast.

(** *** The invariant *)

Lemma wf_children_iff (p : Page) :
  wf p <->
  (forall id, Forall (uid_below (next_uid p)) (children_of id p)) /\
  Forall (λ t, (target t < next_uid p)%nat) (timers p).
Proof.
  split.
  - intros H. split; [intros id; now apply wf_children|apply H].
  - intros [Hn Ht]. split; [|exact Ht].
    intros id e He. specialize (Hn id). unfold children_of in Hn.
    now rewrite He in Hn.
Qed.

Lemma uid_below_mono (a b : nat) (n : Node) :
  (a <= b)%nat -> uid_below a n -> uid_below b n.
Proof. destruct n; cbn; [trivial..|lia]. Qed.

Lemma callbacks_frame (ts : list Timer) (p : Page) :
  let q := foldl (λ q t, run_callback (callback t) q) p ts in
  timers q = timers p /\ now q = now p /\ next_uid q = next_uid p /\
  dom (elements q) = dom (elements p).
Proof.
  revert p. induction ts as [|t ts IH]; intros p; cbn; [auto|].
  destruct (IH (run_callback (callback t) p)) as (-> & -> & -> & ->).
  destruct (callback t). cbn. now rewrite dom_fmap_L.
Qed.

Lemma advance_frame (dt : Z) (p : Page) :
  timers (advance dt p) = filter (λ t, ¬ due t <= now p + dt) (timers p) /\
  now (advance dt p) = now p + dt /\
  next_uid (advance dt p) = next_uid p /\
  dom (elements (advance dt p)) = dom (elements p).
Proof.
  unfold advance.
  match goal with
  | |- context [foldl _ ?q ?ts] => exact (callbacks_frame ts q)
  end.
Qed.

Lemma wf_advance (dt : Z) (p : Page) : wf p -> wf (advance dt p).
Proof.
  rewrite !wf_children_iff. intros [Hn Ht].
  destruct (advance_frame dt p) as (-> & _ & -> & _). split.
  - intros id. rewrite children_of_advance. now apply Forall_kept.
  - now apply Forall_kept.
Qed.

Lemma wf_showToast (message : string) (type : option string) (p : Page) :
  wf p -> wf (snd (showToast message type p)).
Proof.
  intros Hwf.
  destruct (elements p !! "toast-container") as [c|] eqn:Hc.
  - apply wf_children_iff. apply wf_children_iff in Hwf as [Hn Ht]. split.
    + intros id. rewrite (children_after_showToast _ _ _ _ _ Hc).
      rewrite (showToast_page _ _ _ _ Hc). cbn [snd next_uid].
      apply Forall_app. split.
      * eapply Forall_impl; [apply Hn|]. intros n. apply uid_below_mono. lia.
      * destruct (decide _); repeat constructor.
    + rewrite (showToast_page _ _ _ _ Hc). cbn [snd next_uid timers].
      apply Forall_forall. intros t [->|Hin]%enqueue_elem; [cbn; lia|].
      rewrite Forall_forall in Ht. specialize (Ht t Hin). lia.
  - unfold showToast, seq, getElementById, appendChild, on_element.
    rewrite Hc. exact Hwf.
Qed.

(** A page that was loaded from a template without script-made nodes
    satisfies the invariant. *)
Lemma wf_load (template : gmap string Element)
    (attributes storage : gmap string string) :
  map_Forall (λ _ e, Forall (uid_below 0) (childNodes e)) template ->
  wf (load template attributes storage).
Proof. intros H. rewrite load_page. split; [exact H|constructor]. Qed.

(** *** Properties that every helper keeps *)

Create HintDb keeps_db.

Lemma keeps_ret {A : Type} (I : Page -> Prop) (a : A) : keeps I (ret a).
Proof. intros p H. exact H. Qed.

Lemma keeps_seq {A B : Type} (I : Page -> Prop)
    (m : Script A) (k : A -> Script B) :
  keeps I m -> (forall a, keeps I (k a)) -> keeps I (seq m k).
Proof.
  intros Hm Hk p H. unfold seq. specialize (Hm p H).
  destruct (m p) as [[a|e] p']; cbn in *; [now apply Hk|exact Hm].
Qed.

Lemma keeps_getAttribute (I : Page -> Prop) (name : string) :
  keeps I (getAttribute name).
Proof. intros p H. exact H. Qed.

Lemma keeps_getItem (I : Page -> Prop) (key : string) : keeps I (getItem key).
Proof. intros p H. exact H. Qed.

Lemma keeps_setAttribute (I : Page -> Prop) `{!Stable I} (name v : string) :
  keeps I (setAttribute name v).
Proof. intros p H. now apply (stable_frame p). Qed.

Lemma keeps_setItem (I : Page -> Prop) `{!Stable I} (key v : string) :
  keeps I (setItem key v).
Proof. intros p H. now apply (stable_frame p). Qed.

Lemma tidy_set_textContent (s : string) : tidy (set_textContent s).
Proof.
  intros u e H. cbn in H. unfold text_nodes in H.
  destruct (String.eqb s ""); [now apply Exists_nil in H|].
  apply Exists_cons in H as [H|H]; [discriminate|now apply Exists_nil in H].
Qed.

Lemma tidy_set_innerHTML (h : string) : tidy (set_innerHTML h).
Proof.
  intros u e H. cbn in H. unfold markup_nodes in H.
  destruct (String.eqb h ""); [now apply Exists_nil in H|].
  apply Exists_cons in H as [H|H]; [discriminate|now apply Exists_nil in H].
Qed.

Lemma tidy_classList_add (t : string) : tidy (classList_add t).
Proof. intros u e H. exact H. Qed.

Lemma tidy_classList_remove (t : string) : tidy (classList_remove t).
Proof. intros u e H. exact H. Qed.

Hint Resolve keeps_ret keeps_seq keeps_getAttribute keeps_getItem
  keeps_setAttribute keeps_setItem tidy_set_textContent tidy_set_innerHTML
  tidy_classList_add tidy_classList_remove : keeps_db.

Hint Extern 1 (keeps _ (at_id _ _)) =>
  apply stable_write; [discriminate|] : keeps_db.

Section StableProperties.

Context (I : Page -> Prop) `{!Stable I}.

Lemma keeps_openModal (t b : string) (f : option string) :
  keeps I (openModal t b f).
Proof. unfold openModal. auto 12 with keeps_db. Qed.

Lemma keeps_closeModal : keeps I closeModal.
Proof. unfold closeModal. auto with keeps_db. Qed.

Lemma keeps_showLoading (m : option string) : keeps I (showLoading m).
Proof. unfold showLoading. auto 8 with keeps_db. Qed.

Lemma keeps_hideLoading : keeps I hideLoading.
Proof. unfold hideLoading. auto with keeps_db. Qed.

Lemma keeps_on_toggle_click : keeps I on_toggle_click.
Proof. unfold on_toggle_click. auto 8 with keeps_db. Qed.

Lemma keeps_on_document_click (t : string) : keeps I (on_document_click t).
Proof.
  unfold on_document_click. destruct (String.eqb t "modal-overlay");
    auto using keeps_closeModal with keeps_db.
Qed.

Lemma keeps_on_document_keydown (k : string) :
  keeps I (on_document_keydown k).
Proof.
  unfold on_document_keydown. destruct (String.eqb k "Escape");
    auto using keeps_closeModal with keeps_db.
Qed.

Lemma stable_click (path : list string) (p : Page) : I p -> I (click path p).
Proof.
  intros H. unfold click. apply keeps_on_document_click.
  case_bool_decide; [|exact H].
  induction (toggle_listeners p) as [|n IH]; [exact H|].
  cbn. now apply keeps_on_toggle_click.
Qed.

(** A stable property that [showToast] and the passing of time keep
    holds after every action. *)
Lemma stable_step (p : Page) (a : Action) :
  (forall m ty, keeps I (showToast m ty)) ->
  (forall dt q, 0 <= dt -> I q -> I (advance dt q)) ->
  0 <= wait_of a -> I p -> I (step p a).
Proof.
  intros Htoast Hwait Ha H.
  destruct a as [[t b f| | |]| | | | | |]; cbn.
  - now apply keeps_openModal.
  - now apply keeps_closeModal.
  - now apply stable_click.
  - now apply keeps_on_document_keydown.
  - now apply Htoast.
  - now apply keeps_showLoading.
  - now apply keeps_hideLoading.
  - now apply stable_click.
  - now apply keeps_on_document_keydown.
  - now apply Hwait.
Qed.

Lemma stable_run (actions : list Action) (p : Page) :
  (forall m ty, keeps I (showToast m ty)) ->
  (forall dt q, 0 <= dt -> I q -> I (advance dt q)) ->
  forward actions -> I p -> I (run actions p).
Proof.
  intros Htoast Hwait. revert p.
  induction actions as [|a actions IH]; intros p Hf H; [exact H|].
  apply Forall_cons in Hf as [Ha Hf].
  apply IH; [exact Hf|]. now apply stable_step.
Qed.

End StableProperties.

(** *** Three stable properties *)

Lemma tidy_below (f : Element -> Element) (bound : nat) (e : Element) :
  tidy f ->
  Forall (uid_below bound) (childNodes e) ->
  Forall (uid_below bound) (childNodes (f e)).
Proof.
  intros Hf He. apply Forall_forall. intros [d|h|v tag cl ch] Hin; cbn; trivial.
  assert (Exists (λ n, node_is v n = true) (childNodes e)) as Hv.
  { apply Hf, Exists_exists. eexists. split; [exact Hin|apply Nat.eqb_refl]. }
  apply Exists_exists in Hv as ([| |w tag' cl' ch'] & Hin' & Hw);
    try discriminate.
  apply Nat.eqb_eq in Hw as ->.
  rewrite Forall_forall in He. exact (He _ Hin').
Qed.

#[local] Instance wf_stable : Stable wf.
Proof.
  split.
  - intros p q He Ht _ Hn [H1 H2]. unfold wf. now rewrite He, Ht, Hn.
  - intros id f _ Hf p [Hn Ht].
    destruct (elements p !! id) as [e|] eqn:He.
    + rewrite (at_id_found _ _ _ _ He). split; [|exact Ht]. cbn.
      apply map_Forall_insert_2; [|exact Hn].
      apply tidy_below; [exact Hf|exact (Hn id e He)].
    + rewrite (at_id_missing _ _ _ He). now split.
Qed.

#[local] Instance now_stable (t : Z) : Stable (λ q, now q = t).
Proof.
  split.
  - intros p q _ _ Hnow _ H. congruence.
  - intros id f _ _ p H.
    destruct (elements p !! id) as [e|] eqn:He.
    + now rewrite (at_id_found _ _ _ _ He).
    + now rewrite (at_id_missing _ _ _ He).
Qed.

Lemma children_of_write (id id' : string) (f : Element -> Element)
    (p : Page) (e : Element) :
  elements p !! id = Some e ->
  children_of id' (set_elements (<[id := f e]> (elements p)) p) =
    if decide (id = id') then childNodes (f e) else children_of id' p.
Proof.
  intros He. unfold children_of. cbn. destruct (decide (id = id')) as [->|Hne].
  - now rewrite lookup_insert_eq.
  - now rewrite lookup_insert_ne.
Qed.

#[local] Instance tracked_stable (u : nat) (d : Z) : Stable (tracked u d).
Proof.
  split.
  - intros p q He Ht Hnow Hn. unfold tracked, alive, gone, children_of.
    now rewrite He, Ht, Hnow, Hn.
  - intros id f Hid Hf p [Hu H].
    destruct (elements p !! id) as [e|] eqn:He;
      [rewrite (at_id_found _ _ _ _ He)|now rewrite (at_id_missing _ _ _ He)].
    split; [exact Hu|]. destruct H as [(Hnow & Hin & Htimer & Hdue)|[Hnow Hout]].
    + left. repeat split; try assumption. cbn [snd].
      rewrite (children_of_write _ _ _ _ _ He). now rewrite decide_False.
    + right. split; [exact Hnow|]. intros id'. cbn [snd].
      rewrite (children_of_write _ _ _ _ _ He).
      destruct (decide (id = id')) as [<-|_]; [|apply Hout].
      intros Hnew%Hf. apply (Hout id). unfold children_of. now rewrite He.
Qed.

(** The invariant [wf] holds after every action. *)
Lemma wf_run (actions : list Action) (p : Page) :
  forward actions -> wf p -> wf (run actions p).
Proof.
  apply (stable_run wf).
  - intros m ty q. apply wf_showToast.
  - intros dt q _. apply wf_advance.
Qed.

(** The clock moves when time passes and at no other action. *)
Lemma now_showToast (m : string) (ty : option string) (p : Page) :
  now (snd (showToast m ty p)) = now p.
Proof.
  destruct (elements p !! "toast-container") as [c|] eqn:Hc.
  - now rewrite (showToast_page _ _ _ _ Hc).
  - unfold showToast, seq, getElementById, appendChild, on_element.
    now rewrite Hc.
Qed.

Lemma now_step (p : Page) (a : Action) : now (step p a) = now p + wait_of a.
Proof.
  pose (I := λ q : Page, now q = now p).
  destruct a as [[t b f| | |]|m ty|m| |path|key|dt]; cbn [wait_of];
    rewrite ?Z.add_0_r.
  - exact (keeps_openModal I t b f p eq_refl).
  - exact (keeps_closeModal I p eq_refl).
  - exact (stable_click I _ p eq_refl).
  - exact (keeps_on_document_keydown I _ p eq_refl).
  - apply now_showToast.
  - exact (keeps_showLoading I m p eq_refl).
  - exact (keeps_hideLoading I p eq_refl).
  - exact (stable_click I path p eq_refl).
  - exact (keeps_on_document_keydown I key p eq_refl).
  - apply advance_frame.
Qed.

Lemma now_run (actions : list Action) (p : Page) :
  now (run actions p) = now p + elapsed actions.
Proof.
  revert p. induction actions as [|a actions IH]; intros p.
  - unfold run, elapsed. cbn. lia.
  - change (run (a :: actions) p) with (run actions (step p a)).
    change (elapsed (a :: actions)) with (wait_of a + elapsed actions).
    rewrite IH, now_step. lia.
Qed.

(** *** One toast, followed through every run *)

Lemma tracked_showToast (u : nat) (d : Z) (m : string) (ty : option string) :
  keeps (tracked u d) (showToast m ty).
Proof.
  intros p [Hu H].
  destruct (elements p !! "toast-container") as [c|] eqn:Hc.
  2:{ unfold showToast, seq, getElementById, appendChild, on_element.
      rewrite Hc. now split. }
  assert (forall id,
            Exists (λ n, node_is u n = true)
              (children_of id (snd (showToast m ty p))) ->
            Exists (λ n, node_is u n = true) (children_of id p)) as Hold.
  { intros id. rewrite (children_after_showToast _ _ _ _ _ Hc).
    intros [Hin|Hin]%Exists_app; [exact Hin|].
    destruct (decide _); [|now apply Exists_nil in Hin].
    apply Exists_cons in Hin as [Hin|Hin]; [|now apply Exists_nil in Hin].
    apply Nat.eqb_eq in Hin. lia. }
  split; [rewrite (showToast_page _ _ _ _ Hc); cbn; lia|].
  destruct H as [(Hnow & Hin & Htimer & Hdue)|[Hnow Hout]]; [left|right].
  - unfold alive. rewrite now_showToast.
    rewrite (children_after_showToast _ _ _ _ _ Hc).
    rewrite (showToast_page _ _ _ _ Hc). cbn [snd timers].
    repeat split.
    + exact Hnow.
    + apply Exists_app. now left.
    + apply enqueue_elem. now right.
    + intros t [->|Ht]%enqueue_elem Htarget; [cbn in Htarget; lia|auto].
  - split; [now rewrite now_showToast|].
    intros id Hin. exact (Hout id (Hold id Hin)).
Qed.

Lemma tracked_advance (u : nat) (d : Z) (dt : Z) (q : Page) :
  0 <= dt -> tracked u d q -> tracked u d (advance dt q).
Proof.
  intros Hdt [Hu H].
  destruct (advance_frame dt q) as (Htimers & Hnow & Hnext & _).
  split; [now rewrite Hnext|].
  destruct H as [(Hbefore & Hin & Htimer & Hdue)|[Hafter Hout]].
  - destruct (decide (now q + dt < d)) as [Hstill|Hover]; [left|right].
    + unfold alive. rewrite Hnow, Htimers, children_of_advance.
      repeat split.
      * exact Hstill.
      * apply Exists_exists in Hin as (n & Hin & Hn).
        apply Exists_exists. exists n. split; [|exact Hn].
        apply list_elem_of_filter. split; [|exact Hin].
        intros (t & [Hfired Ht]%list_elem_of_filter & Htn)%Exists_exists.
        assert (target t = u) as Htu.
        { destruct n as [| |w tag cl ch]; try discriminate.
          apply Nat.eqb_eq in Hn, Htn. congruence. }
        specialize (Hdue t Ht Htu). lia.
      * apply list_elem_of_filter. split; [cbn; lia|exact Htimer].
      * intros t [_ Ht]%list_elem_of_filter. now apply Hdue.
    + split; [lia|]. intros id. rewrite children_of_advance.
      intros (n & [Hkept _]%list_elem_of_filter & Hn)%Exists_exists.
      apply Hkept, Exists_exists. exists (toast_timer u d). split; [|exact Hn].
      apply list_elem_of_filter. split; [cbn; lia|exact Htimer].
  - right. split; [lia|]. intros id. rewrite children_of_advance.
    intros (n & [_ Hin]%list_elem_of_filter & Hn)%Exists_exists.
    apply (Hout id), Exists_exists. eauto.
Qed.

Lemma tracked_run (u : nat) (d : Z) (actions : list Action) (p : Page) :
  forward actions -> tracked u d p -> tracked u d (run actions p).
Proof.
  apply (stable_run (tracked u d)).
  - intros m ty. apply tracked_showToast.
  - intros dt q. apply tracked_advance.
Qed.

(** A toast is tracked from the moment [showToast] returns. *)
Lemma tracked_start (p : Page) (c : Element) (m : string) (ty : option string) :
  wf p ->
  elements p !! "toast-container" = Some c ->
  tracked (next_uid p) (now p + 4000) (snd (showToast m ty p)).
Proof.
  intros Hwf Hc. split; [rewrite (showToast_page _ _ _ _ Hc); cbn; lia|].
  left. unfold alive. rewrite now_showToast.
  rewrite (children_after_showToast _ _ _ _ _ Hc), decide_True by reflexivity.
  rewrite (showToast_page _ _ _ _ Hc). cbn [snd timers]. repeat split.
  - lia.
  - apply Exists_app. right. constructor. apply Nat.eqb_refl.
  - apply enqueue_elem. now left.
  - intros t [->|Ht]%enqueue_elem Htarget; [reflexivity|].
    destruct Hwf as [_ Hbelow]. rewrite Forall_forall in Hbelow.
    specialize (Hbelow t Ht). lia.
Qed.

(** Whatever happens on the page after [showToast], the toast is in the
    container while less than 4000 ms have passed and nowhere from then
    on. *)
Lemma toast_through_run (p : Page) (c : Element) (m : string)
    (ty : option string) (actions : list Action) :
  wf p ->
  elements p !! "toast-container" = Some c ->
  forward actions ->
  let q := run actions (snd (showToast m ty p)) in
  (elapsed actions < 4000 -> present (next_uid p) "toast-container" q) /\
  (4000 <= elapsed actions -> forall id, ~ present (next_uid p) id q).
Proof.
  intros Hwf Hc Hf q.
  assert (tracked (next_uid p) (now p + 4000) q) as [_ H]
    by (apply tracked_run; [exact Hf|now apply (tracked_start p c)]).
  assert (now q = now p + elapsed actions) as Hnow
    by (subst q; now rewrite now_run, now_showToast).
  unfold present.
  destruct H as [(Hbefore & Hin & _)|[Hafter Hout]]; split; intros; trivial; lia.
Qed.

(** C6.  On a page with the toast container, [showToast] appends one
    toast and sets one timer of 4000 ms.  Whatever happens on the page
    afterwards (other toasts, the dialog, clicks, keys, time passing),
    the toast is in the container while less than 4000 ms have passed
    since it was made, and in no element once 4000 ms have passed: it
    goes by its timer alone, and every other toast by its own.  The
    toast apart, the page is at every moment what it would have been
    without it: neither its arrival nor its removal touches another
    node. *)
Theorem toast_expires_alone
    (p : Page) (c : Element) (message : string) (type : option string) :
  wf p ->
  elements p !! "toast-container" = Some c ->
  let u := next_uid p in
  let p1 := snd (showToast message type p) in
  fst (showToast message type p) = Fulfilled tt /\
  children_of "toast-container" p1 =
    children_of "toast-container" p ++ [toast_node u message type] /\
  timers p1 = enqueue (toast_timer u (now p + 4000)) (timers p) /\
  (forall actions, forward actions ->
      let q := run actions p1 in
      (elapsed actions < 4000 -> present u "toast-container" q) /\
      (4000 <= elapsed actions -> forall id, ~ present u id q)) /\
  (forall dt id,
      filter (λ n, node_is u n = false) (children_of id (advance dt p1)) =
        children_of id (advance dt p)).
Proof.
  intros Hwf Hc u p1.
  split; [now rewrite (showToast_page _ _ _ _ Hc)|].
  split; [subst p1; rewrite (children_after_showToast _ _ _ _ _ Hc);
          now rewrite decide_True by reflexivity|].
  split; [subst p1; now rewrite (showToast_page _ _ _ _ Hc)|].
  split; [|apply (toast_frame p c message type Hwf Hc)].
  intros actions Hf. now apply (toast_through_run p c).
Qed.

End Toasts.

Section ToastWitnesses.
Import Dom App View Examples.

Lemma first_visit_wf : wf first_visit.
Proof. apply (bool_decide_unpack (wf first_visit)). vm_compute. exact I. Defined.

Lemma toast_expires_alone_witness :
  let p1 := snd (showToast "Chapter saved" None first_visit) in
  let busy := [Wait 1500; ShowToast "Export failed" (Some "error");
               Click ["modal-overlay"]; Wait 2499] in
  wf first_visit /\
  children_of "toast-container" p1 =
    [ElementNode 0 "div" ["toast"; "success"] [TextNode "Chapter saved"]] /\
  present 0 "toast-container" (run busy p1) /\
  ~ present 0 "toast-container" (run (busy ++ [Wait 1]) p1) /\
  present 1 "toast-container" (run (busy ++ [Wait 1]) p1).
Proof.
  intros p1 busy.
  destruct (toast_expires_alone first_visit (plain "div") "Chapter saved" None
              first_visit_wf eq_refl)
    as (_ & Hnew & _ & Hrun & _).
  assert (forward busy) as Hbusy by (repeat constructor; cbn; lia).
  assert (forward (busy ++ [Wait 1])) as Hlater
    by (repeat constructor; cbn; lia).
  split; [exact first_visit_wf|].
  split; [exact Hnew|].
  split; [apply (Hrun busy Hbusy); cbn; lia|].
  split; [apply (Hrun _ Hlater); cbn; lia|].
  pose (q := advance 1500 p1).
  assert (wf q) as Hq
    by (apply (bool_decide_unpack (wf q)); vm_compute; exact I).
  assert (exists c, elements q !! "toast-container" = Some c) as [c Hc]
    by (vm_compute; eexists; reflexivity).
  destruct (toast_expires_alone q c "Export failed" (Some "error") Hq Hc)
    as (_ & _ & _ & Hsecond & _).
  assert (forward [Click ["modal-overlay"]; Wait 2499; Wait 1]) as Hrest
    by (repeat constructor; cbn; lia).
  destruct (Hsecond _ Hrest) as [Hstays _].
  assert (elapsed [Click ["modal-overlay"]; Wait 2499; Wait 1] < 4000) as Hshort
    by (cbn; lia).
  specialize (Hstays Hshort).
  unfold busy, run. unfold run in Hstays.
  cbn [app foldl step] in Hstays |- *. unfold listener. fold q.
  exact Hstays.
Defined.

End ToastWitnesses.

(** * Further properties of app.js *)

(** ** The request helper *)

Section RequestMore.
Import JS Api Examples.

(** Every call of [api] makes one call of [fetch] and no second one,
    however the first ends: with the url as given, the method ([GET]
    when left out), the JSON content type, and the network otherwise as
    it was. *)
Theorem api_never_retries
    (url : string) (method : option string) (body : value) (net : Net) :
  exists opts,
    calls (snd (api url method body net)) = calls net ++ [(url, opts)] /\
    Api.method opts = default "GET" method /\
    headers opts = [("Content-Type", "application/json")] /\
    respond (snd (api url method body net)) = respond net.
Proof.
  exists (request_opts (default_method method) (default_body body)).
  split; [apply api_calls_fetch_once|].
  split; [|split].
  - unfold request_opts. now destruct (ToBoolean _).
  - unfold request_opts. now destruct (ToBoolean _).
  - unfold api, fetch. cbn.
    destruct (respond net url _) as [res|e]; [destruct (negb (ok res))|];
      reflexivity.
Qed.

(** When [fetch] itself is rejected (no connection), [api] is rejected
    with the same error, as it is. *)
Theorem api_transport_failure_propagates
    (url : string) (method : option string) (body : value) (net : Net)
    (e : exn) :
  respond net url (request_opts (default_method method) (default_body body))
    = Rejected e ->
  fst (api url method body net) = Rejected e.
Proof. apply api_on_rejection. Qed.

Lemma api_transport_failure_propagates_witness :
  fst (api "/api/projects" None VUndefined offline) = Rejected TypeError.
Proof.
  exact (api_transport_failure_propagates "/api/projects" None VUndefined
           offline TypeError eq_refl).
Defined.

(** [api] is fulfilled in one case only: the response has a success
    status and its body is JSON; the value is then that body. *)
Theorem api_fulfils_only_on_success
    (url : string) (method : option string) (body : value) (net : Net)
    (v : value) :
  fst (api url method body net) = Fulfilled v ->
  exists res,
    respond net url (request_opts (default_method method) (default_body body))
      = Fulfilled res /\
    ok res = true /\ payload res = Some v.
Proof.
  intros H.
  destruct (respond net url
              (request_opts (default_method method) (default_body body)))
    as [res|e] eqn:Hres.
  - rewrite (api_on_response _ _ _ _ _ Hres) in H.
    exists res. split; [reflexivity|].
    destruct (ok res).
    + split; [reflexivity|]. unfold json in H.
      destruct (payload res); [congruence|discriminate].
    + destruct (failure_rejects res) as [x Hx]. congruence.
  - rewrite (api_on_rejection _ _ _ _ _ Hres) in H. discriminate.
Qed.

Lemma api_fulfils_only_on_success_witness :
  exists res,
    respond (server created) "/api/projects"
      (request_opts (default_method (Some "POST")) (default_body draft_one))
      = Fulfilled res /\
    ok res = true /\
    payload res = Some (VObject [("id", VNumber (Int 1));
                                 ("title", VString "Draft One")]).
Proof.
  exact (api_fulfils_only_on_success "/api/projects" (Some "POST") draft_one
           (server created) _ eq_refl).
Defined.

(** A failure whose body is JSON but no object: for [null] the read of
    [err.error] throws and [api] is rejected with a [TypeError]; for a
    boolean, a number, a string or an array both fields are [undefined]
    and the message is ["Request failed"]. *)
Theorem api_failure_body_not_an_object
    (url : string) (method : option string) (body : value) (net : Net)
    (res : Response) (b : value) :
  respond net url (request_opts (default_method method) (default_body body))
    = Fulfilled res ->
  ok res = false ->
  payload res = Some b ->
  match b with
  | VNull | VUndefined =>
      fst (api url method body net) = Rejected TypeError
  | VBool _ | VNumber _ | VString _ | VArray _ =>
      fst (api url method body net) = Rejected (Error "Request failed")
  | VObject _ => True
  end.
Proof.
  intros Hres Hok Hb.
  rewrite (api_on_response _ _ _ _ _ Hres), Hok.
  unfold failure, json. rewrite Hb. now destruct b.
Qed.

Lemma api_failure_body_not_an_object_witness :
  ok null_failure = false /\
  fst (api "/api/projects" None VUndefined (server null_failure))
    = Rejected TypeError.
Proof.
  split; [reflexivity|].
  exact (api_failure_body_not_an_object "/api/projects" None VUndefined
           (server null_failure) null_failure VNull eq_refl eq_refl eq_refl).
Defined.

(** A failure whose [error] field is itself an object (and has no
    property [toString]): the message is the string conversion of that
    object, ["[object Object]"], whatever the object holds. *)
Theorem api_failure_error_object
    (url : string) (method : option string) (body : value) (net : Net)
    (res : Response) (props inner : list (string * value)) :
  respond net url (request_opts (default_method method) (default_body body))
    = Fulfilled res ->
  ok res = false ->
  payload res = Some (VObject props) ->
  own "error" props = Some (VObject inner) ->
  own "toString" inner = None ->
  fst (api url method body net) = Rejected (Error "[object Object]").
Proof.
  intros Hres Hok Hp He Hts.
  rewrite (api_on_response _ _ _ _ _ Hres), Hok.
  rewrite (failure_of_object _ _ Hp), He. cbn.
  unfold or_value, new_Error. cbn. now rewrite Hts.
Qed.

Lemma api_failure_error_object_witness :
  ok nested_error = false /\
  fst (api "/api/projects" (Some "POST") draft_one (server nested_error))
    = Rejected (Error "[object Object]").
Proof.
  split; [reflexivity|].
  exact (api_failure_error_object "/api/projects" (Some "POST") draft_one
           (server nested_error) nested_error _ _
           eq_refl eq_refl eq_refl eq_refl eq_refl).
Defined.

End RequestMore.

(** ** Scripts that write to a few elements *)

Section Touches.
Import JS Dom App View Observe.

Lemma seq_at_id_missing {A : Type} (id : string) (f : Element -> Element)
    (k : unit -> Script A) (p : Page) :
  elements p !! id = None ->
  seq (at_id id f) k p = (Rejected TypeError, p).
Proof. intros H. unfold seq. now rewrite (at_id_missing _ _ _ H). Qed.

Lemma same_outside_refl (ids : list string) (p : Page) : same_outside ids p p.
Proof. repeat split. Qed.

Lemma same_outside_trans (ids : list string) (p q r : Page) :
  same_outside ids p q -> same_outside ids q r -> same_outside ids p r.
Proof.
  intros (H1 & H2 & H3 & H4 & H5 & H6 & H7) (K1 & K2 & K3 & K4 & K5 & K6 & K7).
  repeat split; try congruence.
  intros id Hid. now rewrite K7, H7.
Qed.

Lemma touches_ret {A : Type} (ids : list string) (a : A) : touches ids (ret a).
Proof. intros p. apply same_outside_refl. Qed.

Lemma touches_seq {A B : Type} (ids : list string)
    (m : Script A) (k : A -> Script B) :
  touches ids m -> (forall a, touches ids (k a)) -> touches ids (seq m k).
Proof.
  intros Hm Hk p. unfold seq. specialize (Hm p).
  destruct (m p) as [[a|e] p'] eqn:Hmp; cbn in *; [|exact Hm].
  eapply same_outside_trans; [exact Hm|apply Hk].
Qed.

Lemma touches_at_id (ids : list string) (id : string)
    (f : Element -> Element) :
  id ∈ ids -> touches ids (at_id id f).
Proof.
  intros Hin p. destruct (elements p !! id) as [e|] eqn:He.
  - rewrite (at_id_found _ _ _ _ He). repeat split. cbn.
    intros id' Hout. apply lookup_insert_ne. congruence.
  - rewrite (at_id_missing _ _ _ He). apply same_outside_refl.
Qed.

Lemma touches_openModal (t b : string) (f : option string) :
  touches modal_ids (openModal t b f).
Proof.
  unfold openModal, modal_ids.
  repeat (apply touches_seq; [|intros _]); apply touches_at_id;
    repeat first [apply list_elem_of_here | apply list_elem_of_further].
Qed.

Lemma touches_closeModal : touches modal_ids closeModal.
Proof.
  unfold closeModal, modal_ids. apply touches_at_id.
  repeat first [apply list_elem_of_here | apply list_elem_of_further].
Qed.

Lemma touches_showLoading (m : option string) :
  touches loading_ids (showLoading m).
Proof.
  unfold showLoading, loading_ids.
  repeat (apply touches_seq; [|intros _]); apply touches_at_id;
    repeat first [apply list_elem_of_here | apply list_elem_of_further].
Qed.

Lemma touches_hideLoading : touches loading_ids hideLoading.
Proof.
  unfold hideLoading, loading_ids. apply touches_at_id.
  repeat first [apply list_elem_of_here | apply list_elem_of_further].
Qed.

End Touches.

(** ** The modal dialog, further *)

Section ModalMore.
Import JS Dom App View Observe Examples.

(** [openModal] returns exactly when the page has the four elements of
    the dialog.  When one is missing it throws a [TypeError] at the
    first that is, and the overlay is as it was: a dialog that was
    hidden is not revealed. *)
Theorem openModal_needs_its_elements
    (t b : string) (f : option string) (p : Page) :
  (has_modal p -> fst (openModal t b f p) = Fulfilled tt) /\
  (~ has_modal p ->
     fst (openModal t b f p) = Rejected TypeError /\
     elements (snd (openModal t b f p)) !! "modal-overlay"
       = elements p !! "modal-overlay").
Proof.
  split.
  - intros ([et Ht] & [eb Hb] & [ef Hf] & [eo Ho]).
    now rewrite (openModal_page _ _ _ _ _ _ _ _ Ht Hb Hf Ho).
  - intros Hno. unfold openModal.
    destruct (elements p !! "modal-title") as [et|] eqn:Ht;
      [|now rewrite (seq_at_id_missing _ _ _ _ Ht)].
    rewrite (seq_at_id_found _ _ _ _ _ Ht).
    destruct (elements p !! "modal-body") as [eb|] eqn:Hb.
    2:{ rewrite seq_at_id_missing by (cbn; now rewrite lookup_insert_ne).
        cbn. now rewrite lookup_insert_ne. }
    rewrite (seq_at_id_found _ _ _ _ eb) by (cbn; now rewrite lookup_insert_ne).
    destruct (elements p !! "modal-footer") as [ef|] eqn:Hf.
    2:{ rewrite seq_at_id_missing by (cbn; now rewrite !lookup_insert_ne).
        cbn. now rewrite !lookup_insert_ne. }
    rewrite (seq_at_id_found _ _ _ _ ef) by (cbn; now rewrite !lookup_insert_ne).
    destruct (elements p !! "modal-overlay") as [eo|] eqn:Ho.
    + exfalso. apply Hno. unfold has_modal. rewrite Ht, Hb, Hf, Ho. eauto.
    + rewrite at_id_missing by (cbn; now rewrite !lookup_insert_ne).
      cbn. now rewrite !lookup_insert_ne.
Qed.

Lemma closes_modal_step (p : Page) (op : ModalOp) :
  closes op = true -> modal_step p op = listener closeModal p.
Proof. intros H. apply modal_step_close. now destruct op. Qed.

Lemma closeModal_twice (p : Page) :
  listener closeModal (listener closeModal p) = listener closeModal p.
Proof.
  unfold listener at 2 3.
  destruct (elements p !! "modal-overlay") as [eo|] eqn:Ho.
  - rewrite (closeModal_page _ _ Ho). unfold listener. cbn [snd].
    erewrite closeModal_closed; [reflexivity| |].
    + cbn. apply lookup_insert_eq.
    + apply classList_add_elem.
  - unfold closeModal. rewrite (at_id_missing _ _ _ Ho). cbn [snd].
    unfold listener. now rewrite (at_id_missing _ _ _ Ho).
Qed.

Lemma closeModal_children (id : string) (p : Page) :
  children_of id (listener closeModal p) = children_of id p.
Proof.
  unfold listener.
  destruct (elements p !! "modal-overlay") as [eo|] eqn:Ho.
  - rewrite (closeModal_page _ _ Ho). cbn [snd].
    rewrite (children_of_write _ _ _ _ _ Ho).
    destruct (decide _) as [<-|]; [|reflexivity].
    unfold children_of. now rewrite Ho.
  - unfold closeModal. now rewrite (at_id_missing _ _ _ Ho).
Qed.

(** Closing hides the dialog and clears nothing: no dialog is on
    display afterwards, the overlay carries the class [hidden], and the
    children of every element, those of the title, the body and the
    footer among them, are as they were.  And closing is idempotent: a
    second closing of any kind changes nothing more. *)
Theorem closing_keeps_the_content (p : Page) (op op' : ModalOp) :
  closes op = true -> closes op' = true ->
  visible_dialogs (modal_step p op) = [] /\
  (forall overlay,
     elements p !! "modal-overlay" = Some overlay ->
     elements (modal_step p op) !! "modal-overlay"
     = Some (classList_add "hidden" overlay)) /\
  (forall id, children_of id (modal_step p op) = children_of id p) /\
  modal_step (modal_step p op) op' = modal_step p op.
Proof.
  intros H H'. rewrite (closes_modal_step _ _ H). split; [|split; [|split]].
  - apply visible_after_close.
  - intros overlay Ho. unfold listener. rewrite (closeModal_page _ _ Ho).
    cbn. apply lookup_insert_eq.
  - intros id. apply closeModal_children.
  - rewrite (closes_modal_step _ _ H'). apply closeModal_twice.
Qed.

(** A click whose target is not the overlay itself (a click inside the
    dialog, for one) and a key other than Escape change nothing. *)
Theorem other_clicks_and_keys_change_nothing
    (p : Page) (path : list string) (key : string) :
  "theme-toggle" ∉ path ->
  head path <> Some "modal-overlay" ->
  key <> "Escape" ->
  click path p = p /\ keydown key p = p.
Proof.
  intros Htoggle Htarget Hkey. split.
  - unfold click. rewrite bool_decide_eq_false_2 by assumption.
    unfold listener, on_document_click.
    destruct (String.eqb_spec (default "" (head path)) "modal-overlay")
      as [Heq|_]; [|reflexivity].
    destruct path as [|x path]; [discriminate|]. cbn in *. congruence.
  - unfold keydown, listener, on_document_keydown.
    destruct (String.eqb_spec key "Escape"); [contradiction|reflexivity].
Qed.

(** The operations on the dialog write to its four elements only: the
    toasts and their timers, the loading overlay, the theme and the
    storage are as they were. *)
Theorem modal_touches_only_the_dialog (p : Page) (op : ModalOp) :
  same_outside modal_ids p (modal_step p op).
Proof.
  destruct (closes op) eqn:Hop.
  - rewrite (closes_modal_step _ _ Hop). apply touches_closeModal.
  - destruct op; try discriminate. apply touches_openModal.
Qed.

End ModalMore.

Section ModalMoreWitnesses.
Import JS Dom App View Observe Examples.

Lemma closing_keeps_the_content_witness :
  let opened := modal_step first_visit (OpenModal "Rename" "<input>" None) in
  visible_dialogs opened
  = [{| shown_title := [TextNode "Rename"];
        shown_body := [Markup "<input>"];
        shown_footer := [] |}] /\
  visible_dialogs (modal_step opened EscapeKey) = [] /\
  children_of "modal-title" (modal_step opened EscapeKey) = [TextNode "Rename"] /\
  modal_step (modal_step opened EscapeKey) BackdropClick
    = modal_step opened EscapeKey.
Proof.
  intros opened.
  destruct (closing_keeps_the_content opened EscapeKey BackdropClick
              eq_refl eq_refl) as (Hhidden & _ & Hkept & Hsame).
  split; [reflexivity|]. split; [exact Hhidden|].
  split; [rewrite Hkept; reflexivity|exact Hsame].
Defined.

Lemma other_clicks_and_keys_change_nothing_witness :
  let opened := modal_step first_visit (OpenModal "Rename" "<input>" None) in
  click ["modal-body"; "modal"; "modal-overlay"] opened = opened /\
  keydown "Enter" opened = opened.
Proof.
  intros opened.
  apply other_clicks_and_keys_change_nothing.
  - intros H. repeat (apply elem_of_cons in H as [H|H]; [discriminate|]).
    now apply elem_of_nil in H.
  - discriminate.
  - discriminate.
Defined.

End ModalMoreWitnesses.

(** ** The loading overlay, further *)

Section LoadingMore.
Import JS Dom App View Observe Examples.

Lemma has_loading_showLoading (m : option string) (p : Page) :
  has_loading p -> has_loading (listener (showLoading m) p).
Proof.
  intros [[em Hm] [eo Ho]]. unfold listener.
  rewrite (showLoading_page _ _ _ _ Hm Ho). unfold has_loading. cbn.
  rewrite lookup_insert_ne, !lookup_insert_eq by discriminate. eauto.
Qed.

Lemma showLoading_shows (m : option string) (p : Page) :
  has_loading p ->
  loading_visible (listener (showLoading m) p) = true /\
  children_of "loading-message" (listener (showLoading m) p)
    = text_nodes (default "Processing..." m).
Proof.
  intros [[em Hm] [eo Ho]]. unfold listener.
  rewrite (showLoading_page _ _ _ _ Hm Ho).
  unfold loading_visible, children_of. cbn.
  rewrite lookup_insert_eq, lookup_insert_ne, lookup_insert_eq by discriminate.
  split; [|reflexivity].
  now rewrite bool_decide_eq_false_2 by apply classList_remove_elem.
Qed.

Lemma has_loading_show_all (ms : list (option string)) (p : Page) :
  has_loading p -> has_loading (show_all ms p).
Proof.
  revert p. induction ms as [|m ms IH]; intros p H; [exact H|].
  apply IH. now apply has_loading_showLoading.
Qed.

Lemma show_all_snoc (ms : list (option string)) (m : option string) (p : Page) :
  show_all (ms ++ [m]) p = listener (showLoading m) (show_all ms p).
Proof. unfold show_all. now rewrite foldl_app. Qed.

(** After any series of calls of [showLoading] the overlay is on display
    with the message of the last call, ["Processing..."] when that call
    gave none: the last writer wins. *)
Theorem showLoading_last_message_wins
    (p : Page) (ms : list (option string)) (m : option string) :
  has_loading p ->
  loading_visible (show_all (ms ++ [m]) p) = true /\
  children_of "loading-message" (show_all (ms ++ [m]) p)
    = text_nodes (default "Processing..." m).
Proof.
  intros H. rewrite show_all_snoc.
  apply showLoading_shows. now apply has_loading_show_all.
Qed.

(** One call of [hideLoading] hides the overlay however many calls of
    [showLoading] went before: the calls are not counted.  The message
    stays in place, hidden. *)
Theorem hideLoading_does_not_count
    (p : Page) (ms : list (option string)) :
  has_loading p ->
  loading_visible (listener hideLoading (show_all ms p)) = false /\
  children_of "loading-message" (listener hideLoading (show_all ms p))
    = children_of "loading-message" (show_all ms p).
Proof.
  intros H. apply (has_loading_show_all ms) in H.
  destruct H as [[em Hm] [eo Ho]]. unfold listener, hideLoading.
  rewrite (at_id_found _ _ _ _ Ho).
  unfold loading_visible, children_of. cbn.
  rewrite lookup_insert_eq, lookup_insert_ne by discriminate.
  split; [|reflexivity].
  now rewrite bool_decide_eq_true_2 by apply classList_add_elem.
Qed.

(** [showLoading] on a page without the message element throws before
    it has done anything: the overlay is not shown.  Without the
    overlay element it throws after the message is written. *)
Theorem showLoading_missing_element (m : option string) (p : Page) :
  (elements p !! "loading-message" = None ->
     showLoading m p = (Rejected TypeError, p)) /\
  (forall em,
     elements p !! "loading-message" = Some em ->
     elements p !! "loading-overlay" = None ->
     fst (showLoading m p) = Rejected TypeError /\
     children_of "loading-message" (snd (showLoading m p))
       = text_nodes (default "Processing..." m)).
Proof.
  split.
  - intros Hm. unfold showLoading. now rewrite (seq_at_id_missing _ _ _ _ Hm).
  - intros em Hm Ho. unfold showLoading.
    rewrite (seq_at_id_found _ _ _ _ _ Hm).
    rewrite at_id_missing by (cbn; now rewrite lookup_insert_ne).
    split; [reflexivity|]. cbn [snd].
    rewrite (children_of_write _ _ _ _ _ Hm). now rewrite decide_True.
Qed.

(** [showLoading] and [hideLoading] write to the two elements of the
    overlay only: an open dialog, the toasts and the theme are as they
    were. *)
Theorem loading_touches_only_the_overlay (m : option string) (p : Page) :
  same_outside loading_ids p (listener (showLoading m) p) /\
  same_outside loading_ids p (listener hideLoading p).
Proof. split; [apply touches_showLoading|apply touches_hideLoading]. Qed.

End LoadingMore.

Section LoadingMoreWitnesses.
Import JS Dom App View Observe Examples.

Lemma first_visit_has_loading : has_loading first_visit.
Proof. split; vm_compute; eexists; reflexivity. Defined.

Lemma showLoading_last_message_wins_witness :
  loading_visible
    (show_all ([Some "Expanding the outline..."] ++ [None]) first_visit) = true /\
  children_of "loading-message"
    (show_all ([Some "Expanding the outline..."] ++ [None]) first_visit)
    = [TextNode "Processing..."].
Proof.
  exact (showLoading_last_message_wins first_visit
           [Some "Expanding the outline..."] None first_visit_has_loading).
Defined.

Lemma hideLoading_does_not_count_witness :
  let busy := show_all [Some "Saving..."; Some "Exporting..."] first_visit in
  loading_visible busy = true /\
  loading_visible (listener hideLoading busy) = false.
Proof.
  intros busy. split; [reflexivity|].
  exact (proj1 (hideLoading_does_not_count first_visit
                  [Some "Saving..."; Some "Exporting..."]
                  first_visit_has_loading)).
Defined.

End LoadingMoreWitnesses.

(** ** Toasts, further *)

Section ToastsMore.
Import JS Dom App View Observe Examples.

(** [showToast] on a page without the toast container throws a
    [TypeError] and leaves the page as it was: no node, no timer. *)
Theorem showToast_without_container
    (message : string) (type : option string) (p : Page) :
  elements p !! "toast-container" = None ->
  showToast message type p = (Rejected TypeError, p).
Proof.
  intros H. unfold showToast, seq, getElementById, appendChild, on_element.
  now rewrite H.
Qed.

Lemma toast_all_cons (t : string * option string)
    (toasts : list (string * option string)) (p : Page) :
  toast_all (t :: toasts) p
    = toast_all toasts (snd (showToast (fst t) (snd t) p)).
Proof. reflexivity. Qed.

(** Toasts stack: a series of calls of [showToast] appends its toasts to
    the container in the order of the calls, behind the toasts that are
    there, each with a timer of its own and none replacing another. *)
Theorem toasts_stack_in_order
    (toasts : list (string * option string)) (p : Page) (c : Element) :
  elements p !! "toast-container" = Some c ->
  children_of "toast-container" (toast_all toasts p) =
    children_of "toast-container" p ++ toast_nodes (next_uid p) toasts /\
  length (timers (toast_all toasts p)) =
    (length (timers p) + length toasts)%nat.
Proof.
  revert p c. induction toasts as [|t toasts IH]; intros p c Hc.
  - cbn. rewrite app_nil_r. split; [reflexivity|lia].
  - rewrite toast_all_cons.
    assert (exists c', elements (snd (showToast (fst t) (snd t) p))
                         !! "toast-container" = Some c') as [c' Hc'].
    { rewrite (showToast_page _ _ _ _ Hc). cbn.
      rewrite lookup_insert_eq. eauto. }
    destruct (IH _ _ Hc') as [Hch Hlen]. rewrite Hch, Hlen.
    rewrite (children_after_showToast _ _ _ _ _ Hc), decide_True by reflexivity.
    rewrite (showToast_page _ _ _ _ Hc). cbn [snd next_uid timers].
    split.
    + now rewrite <- app_assoc.
    + assert (forall x l, length (enqueue x l) = S (length l)) as Henq.
      { intros x l. induction l as [|y l IHl]; cbn; [reflexivity|].
        destruct (due y <=? due x); cbn; lia. }
      rewrite Henq. cbn. lia.
Qed.

End ToastsMore.

Section ToastsMoreWitnesses.
Import JS Dom App View Observe Examples.

Lemma showToast_without_container_witness :
  let bare := load ∅ ∅ ∅ in
  showToast "Chapter saved" None bare = (Rejected TypeError, bare).
Proof.
  exact (showToast_without_container "Chapter saved" None (load ∅ ∅ ∅) eq_refl).
Defined.

Lemma toasts_stack_in_order_witness :
  children_of "toast-container"
    (toast_all [("Chapter saved", None); ("Export failed", Some "error")]
       first_visit) =
    [ElementNode 0 "div" ["toast"; "success"] [TextNode "Chapter saved"];
     ElementNode 1 "div" ["toast"; "error"] [TextNode "Export failed"]].
Proof.
  exact (proj1 (toasts_stack_in_order
                  [("Chapter saved", None); ("Export failed", Some "error")]
                  first_visit (plain "div") eq_refl)).
Defined.

End ToastsMoreWitnesses.

(** ** The theme, further *)

Section ThemeMore.
Import JS Dom App View Observe Examples.

(** Startup reads the storage and writes nothing to it: on a first
    visit [dark] is shown and nothing is stored until the toggle is
    clicked.  The document is as the template gave it, but for the
    [data-theme] attribute, which startup sets over whatever the
    template said. *)
Theorem startup_stores_nothing
    (template : gmap string Element) (attributes storage : gmap string string) :
  localStorage (load template attributes storage) = storage /\
  elements (load template attributes storage) = template /\
  root (load template attributes storage) =
    <["data-theme" := or_string (storage !! "theme") "dark"]> attributes /\
  (storage !! "theme" = None ->
     theme (load template attributes storage) = Some "dark" /\
     persisted (load template attributes storage) = None).
Proof.
  rewrite load_page. cbn. repeat split.
  - unfold theme. cbn. rewrite lookup_insert_eq. now rewrite H.
  - unfold persisted. cbn. exact H.
Qed.

(** After a click on the toggle the attribute and the storage hold the
    same value, [dark] or [light], whatever was there before; and from
    [dark] or [light] a second click leads back. *)
Theorem toggle_keeps_storage_in_step (path : list string) (p : Page) :
  toggle_listeners p = 1%nat ->
  "theme-toggle" ∈ path ->
  let q := click path p in
  theme q = persisted q /\
  (theme q = Some "dark" \/ theme q = Some "light") /\
  (theme p = Some "dark" \/ theme p = Some "light" ->
     theme (click path q) = theme p).
Proof.
  intros Hn Hp q. subst q.
  destruct (click_toggle path p Hn Hp) as (Ht & Hs & Hn').
  destruct (click_toggle path (click path p) Hn' Hp) as (Ht' & _ & _).
  rewrite Ht', Ht, Hs. repeat split.
  - unfold flipped. destruct (theme p) as [c|]; [|now left].
    destruct (String.eqb c "dark"); [now right|now left].
  - intros [-> | ->]; reflexivity.
Qed.

Lemma click_without_listener (path : list string) (p : Page) :
  toggle_listeners p = 0%nat ->
  root (click path p) = root p /\
  localStorage (click path p) = localStorage p /\
  toggle_listeners (click path p) = 0%nat.
Proof.
  intros Hn.
  assert (click path p = listener (on_document_click (default "" (head path))) p)
    as -> by (unfold click; rewrite Hn; now destruct (bool_decide _)).
  destruct (document_click_frame (default "" (head path)) p)
    as (-> & -> & ->); auto.
Qed.

(** On a page whose template has no toggle no listener is attached, and
    no series of clicks changes the theme or the storage. *)
Theorem no_toggle_no_theme_change
    (template : gmap string Element) (attributes storage : gmap string string)
    (paths : list (list string)) :
  template !! "theme-toggle" = None ->
  let p := load template attributes storage in
  theme (click_all paths p) = theme p /\
  localStorage (click_all paths p) = storage.
Proof.
  intros Hno p.
  assert (toggle_listeners p = 0%nat) as Hn
    by (subst p; rewrite load_page; cbn; now rewrite Hno).
  assert (localStorage p = storage) as Hst
    by (subst p; now rewrite load_page).
  rewrite <- Hst. clearbody p. clear Hst. revert p Hn.
  induction paths as [|path paths IH]; intros p Hn; [now split|].
  destruct (click_without_listener path p Hn) as (Hr & Hs & Hn').
  destruct (IH _ Hn') as [IH1 IH2]. cbn. unfold click_all in *.
  rewrite IH1, IH2. unfold theme. now rewrite Hr, Hs.
Qed.

End ThemeMore.

Section ThemeMoreWitnesses.
Import JS Dom App View Observe Examples.

Lemma toggle_keeps_storage_in_step_witness :
  let q := click ["theme-toggle"] sepia_visit in
  theme sepia_visit = Some "sepia" /\
  theme q = persisted q /\
  (theme q = Some "dark" \/ theme q = Some "light").
Proof.
  intros q. split; [reflexivity|].
  destruct (toggle_keeps_storage_in_step ["theme-toggle"] sepia_visit eq_refl
              ltac:(apply elem_of_cons; now left)) as (H1 & H2 & _).
  split; [exact H1|exact H2].
Defined.

Lemma no_toggle_no_theme_change_witness :
  let p := load (delete "theme-toggle" template) ∅ ∅ in
  theme (click_all [["theme-toggle"]; ["modal-overlay"]] p) = Some "dark" /\
  localStorage (click_all [["theme-toggle"]; ["modal-overlay"]] p) = ∅.
Proof.
  intros p. subst p.
  destruct (no_toggle_no_theme_change (delete "theme-toggle" template) ∅ ∅
              [["theme-toggle"]; ["modal-overlay"]] (lookup_delete_eq _ _))
    as [Ht Hs].
  split; [rewrite Ht; reflexivity|exact Hs].
Defined.

End ThemeMoreWitnesses.

(** ** Escaping, further *)

Section EscapingMore.
Import Dom App View Observe.

(** [escHtml] loses nothing: two texts with the same escaped form are
    the same text. *)
Theorem escHtml_injective (a b : string) : escHtml a = escHtml b -> a = b.
Proof.
  rewrite !escHtml_escape. intros H.
  destruct (escape_unescape a) as [Ha _].
  destruct (escape_unescape b) as [Hb _].
  rewrite H in Ha. congruence.
Qed.

Lemma plain_text_cons (c : ascii) (s : string) :
  plain_text (String c s) =
    negb (Ascii.eqb c "&") && negb (Ascii.eqb c "<") && negb (Ascii.eqb c ">")
    && negb (Ascii.eqb c "194"
             && match s with
                | String d _ => Ascii.eqb d "160"
                | EmptyString => false
                end)
    && plain_text s.
Proof.
  unfold plain_text. cbn [occurs has_nbsp].
  rewrite !(Ascii.eqb_sym _ c).
  destruct (Ascii.eqb c "&"), (Ascii.eqb c "<"), (Ascii.eqb c ">"),
    (Ascii.eqb c "194" && _), (occurs "&" s), (occurs "<" s), (occurs ">" s),
    (has_nbsp s); reflexivity.
Qed.

Lemma length_append (a b : string) :
  String.length (a +:+ b) = (String.length a + String.length b)%nat.
Proof.
  induction a as [|c a IH]; [reflexivity|].
  change (S (String.length (a +:+ b)) = S (String.length a + String.length b)).
  now rewrite IH.
Qed.

(** Escaping never shortens a text, and lengthens every text that holds
    something to replace: at a string and at the string with one more
    byte in front. *)
Lemma escape_length (s : string) :
  ((String.length s <= String.length (escape false s))%nat /\
   (plain_text s = false ->
    (String.length s < String.length (escape false s))%nat)) /\
  forall c,
    (String.length (String c s)
     <= String.length (escape false (String c s)))%nat /\
    (plain_text (String c s) = false ->
     (String.length (String c s)
      < String.length (escape false (String c s)))%nat).
Proof.
  induction s as [|d s [[IHle IHlt] IHd]].
  - split; [split; [reflexivity|discriminate]|]. intros c.
    rewrite escape_text_cons, plain_text_cons.
    destruct (Ascii.eqb c "&");
      [rewrite length_append; cbn [String.length escape]; split; lia|].
    destruct (Ascii.eqb c "<");
      [rewrite length_append; cbn [String.length escape]; split; lia|].
    destruct (Ascii.eqb c ">");
      [rewrite length_append; cbn [String.length escape]; split; lia|].
    destruct (Ascii.eqb c "194"); cbn; split; (lia || discriminate).
  - split; [apply IHd|]. intros c.
    destruct (IHd d) as [Hle Hlt].
    rewrite escape_text_cons, plain_text_cons.
    destruct (Ascii.eqb c "&");
      [rewrite length_append; cbn [String.length] in *; split; lia|].
    destruct (Ascii.eqb c "<");
      [rewrite length_append; cbn [String.length] in *; split; lia|].
    destruct (Ascii.eqb c ">");
      [rewrite length_append; cbn [String.length] in *; split; lia|].
    destruct (Ascii.eqb c "194").
    + destruct (Ascii.eqb d "160").
      * rewrite length_append. cbn [String.length] in *. split; lia.
      * cbn [negb andb String.length] in *. split; [lia|].
        intros H. apply Hlt in H. lia.
    + cbn [negb andb String.length] in *. split; [lia|].
      intros H. apply Hlt in H. lia.
Qed.

(** A text without ampersand, angle bracket and no-break space comes
    back as it is: quotes, apostrophes and every other byte are left
    alone, a byte 194 that starts another character among them.  Every
    other text comes back longer. *)
Theorem escHtml_leaves_plain_text (s : string) :
  (plain_text s = true -> escHtml s = s) /\
  (plain_text s = false ->
   (String.length s < String.length (escHtml s))%nat).
Proof.
  rewrite escHtml_escape. split; [|apply escape_length].
  induction s as [|c s IH]; [reflexivity|].
  rewrite plain_text_cons, escape_text_cons.
  destruct (Ascii.eqb c "&"); [discriminate|].
  destruct (Ascii.eqb c "<"); [discriminate|].
  destruct (Ascii.eqb c ">"); [discriminate|].
  destruct (Ascii.eqb c "194").
  - destruct s as [|d s]; [reflexivity|].
    destruct (Ascii.eqb d "160"); [discriminate|].
    cbn [negb andb]. intros H. now rewrite IH.
  - cbn [negb andb]. intros H. now rewrite IH.
Qed.

Lemma escape_no_angle (c : ascii) (s : string) :
  c = "<"%char \/ c = ">"%char ->
  occurs c (escape false s) = false /\
  forall d, occurs c (escape false (String d s)) = false.
Proof.
  intros Hc. induction s as [|e s [IHs IHe]].
  - split; [reflexivity|]. intros d. rewrite escape_text_cons.
    destruct (Ascii.eqb_spec d "&") as [->|Hamp];
      [destruct Hc as [-> | ->]; reflexivity|].
    destruct (Ascii.eqb_spec d "<") as [->|Hlt];
      [destruct Hc as [-> | ->]; reflexivity|].
    destruct (Ascii.eqb_spec d ">") as [->|Hgt];
      [destruct Hc as [-> | ->]; reflexivity|].
    assert (Ascii.eqb c d = false) as Hcd
      by (apply Ascii.eqb_neq; destruct Hc; congruence).
    destruct (Ascii.eqb d "194"); cbn [occurs]; now rewrite Hcd.
  - split; [apply IHe|]. intros d. rewrite escape_text_cons.
    destruct (Ascii.eqb_spec d "&") as [->|Hamp].
    { rewrite occurs_append, (IHe e). destruct Hc as [-> | ->]; reflexivity. }
    destruct (Ascii.eqb_spec d "<") as [->|Hlt].
    { rewrite occurs_append, (IHe e). destruct Hc as [-> | ->]; reflexivity. }
    destruct (Ascii.eqb_spec d ">") as [->|Hgt].
    { rewrite occurs_append, (IHe e). destruct Hc as [-> | ->]; reflexivity. }
    assert (Ascii.eqb c d = false) as Hcd
      by (apply Ascii.eqb_neq; destruct Hc; congruence).
    destruct (Ascii.eqb d "194").
    + destruct (Ascii.eqb e "160").
      * rewrite occurs_append, IHs. destruct Hc as [-> | ->]; reflexivity.
      * cbn [occurs]. now rewrite Hcd, (IHe e).
    + cbn [occurs]. now rewrite Hcd, (IHe e).
Qed.

(** What [escHtml] returns holds no angle bracket, whatever the text. *)
Theorem escHtml_has_no_angle_bracket (s : string) :
  occurs "<" (escHtml s) = false /\ occurs ">" (escHtml s) = false.
Proof.
  rewrite escHtml_escape. split.
  - apply escape_no_angle. now left.
  - apply escape_no_angle. now right.
Qed.

End EscapingMore.

Section EscapingMoreWitnesses.
Import Dom App View Observe.

Lemma escHtml_injective_witness :
  escHtml "a < b" = escHtml "a < b" /\ "a < b" = "a < b".
Proof.
  split; [reflexivity|].
  exact (escHtml_injective "a < b" "a < b" eq_refl).
Defined.

Lemma escHtml_leaves_plain_text_witness :
  let price := String "194" (String "163" "5") in
  let said := "She said " +:+ String "034" ("it's " +:+ price +:+ String "034" "") in
  plain_text said = true /\ escHtml said = said.
Proof.
  intros price said. split; [reflexivity|].
  exact (proj1 (escHtml_leaves_plain_text said) eq_refl).
Defined.

End EscapingMoreWitnesses.

(** * Properties of site/js/main.js *)

Section ClassLists.
Import Site.

Lemma contains_add (t : string) (e : Dom.Element) :
  classList_contains t (Dom.classList_add t e) = true.
Proof.
  apply bool_decide_eq_true_2, classList_add_elem.
Qed.

Lemma contains_remove (t : string) (e : Dom.Element) :
  classList_contains t (Dom.classList_remove t e) = false.
Proof.
  apply bool_decide_eq_false_2, classList_remove_elem.
Qed.

Lemma contains_toggle (t : string) (e : Dom.Element) :
  classList_contains t (classList_toggle t e) = negb (classList_contains t e).
Proof.
  unfold classList_toggle. destruct (classList_contains t e) eqn:H; cbn.
  - apply contains_remove.
  - apply contains_add.
Qed.

End ClassLists.

(** ** The mobile navigation *)

Section Navigation.
Import Site.

(** The toggle button and the navigation open and close together: if
    both are open or both closed, they are so after any clicks on the
    toggle, on dropdown links and on anchor links, at any width of the
    window. *)
Theorem nav_toggle_stays_in_sync (s : Nav) (evs : list NavEvent) :
  in_sync s -> in_sync (nav_run evs s).
Proof.
  revert s. induction evs as [|ev evs IH]; intros s Hs; [exact Hs|].
  cbn [nav_run foldl]. apply IH. clear IH.
  destruct Hs as (toggle & nav & Ht & Hn & Hsync).
  destruct ev as [|index|found|width]; unfold nav_step.
  - rewrite Ht, Hn. eexists _, _. split; [reflexivity|].
    split; [reflexivity|]. now rewrite !contains_toggle, Hsync.
  - rewrite Ht, Hn.
    destruct (dropdownItems s !! index) as [[has_menu it]|];
      [destruct (_ && _)|]; exists toggle, nav; auto.
  - destruct found; [|exists toggle, nav; auto]. rewrite Hn.
    destruct (classList_contains "active" nav) eqn:Hactive;
      [|exists toggle, nav; repeat split; congruence].
    rewrite Ht. eexists _, _. split; [reflexivity|].
    split; [reflexivity|]. now rewrite !contains_remove.
  - exists toggle, nav. auto.
Qed.
End Navigation.

(** ** The hero carousel *)

Section HeroCarousel.
Import JS Site.

Lemma item_lookup {A : Type} (l : list A) (i : nat) :
  item l (Z.of_nat i) = l !! i.
Proof.
  unfold item. destruct (Z.ltb_spec (Z.of_nat i) 0); [lia|].
  now rewrite Nat2Z.id.
Qed.


Lemma on_slide_ok (i : nat) (f : Dom.Element -> Dom.Element) (c : Carousel)
    (e : Dom.Element) :
  slides c !! i = Some e ->
  on_slide (Z.of_nat i) f c
  = (Fulfilled tt, set_slides (<[i := f e]> (slides c)) c).
Proof.
  intros H. unfold on_slide. rewrite item_lookup, Nat2Z.id, H. reflexivity.
Qed.

Lemma on_indicator_ok (i : nat) (f : Dom.Element -> Dom.Element)
    (c : Carousel) (e : Dom.Element) :
  indicators c !! i = Some e ->
  on_indicator (Z.of_nat i) f c
  = (Fulfilled tt, set_indicators (<[i := f e]> (indicators c)) c).
Proof.
  intros H. unfold on_indicator. rewrite item_lookup, Nat2Z.id, H.
  reflexivity.
Qed.

Lemma swap_active (l : list Dom.Element) (cur new : nat) :
  (cur < length l)%nat -> (new < length l)%nat ->
  (forall i e, l !! i = Some e -> (active e <-> i = cur)) ->
  exists e e1,
    l !! cur = Some e /\
    <[cur := Dom.classList_remove "active" e]> l !! new = Some e1 /\
    forall i e',
      <[new := Dom.classList_add "active" e1]>
        (<[cur := Dom.classList_remove "active" e]> l) !! i = Some e' ->
      (active e' <-> i = new).
Proof.
  intros Hcur Hnew Hl.
  destruct (lookup_lt_is_Some_2 l cur Hcur) as [e He].
  set (l1 := <[cur := Dom.classList_remove "active" e]> l).
  assert (Hnew1 : (new < length l1)%nat)
    by (unfold l1; now rewrite length_insert).
  destruct (lookup_lt_is_Some_2 l1 new Hnew1) as [e1 He1].
  exists e, e1. split; [assumption|]. split; [assumption|].
  intros i e' H. destruct (decide (i = new)) as [->|Hne].
  - rewrite list_lookup_insert_eq in H by assumption. injection H as <-.
    split; [reflexivity|]. intros _. apply classList_add_elem.
  - rewrite list_lookup_insert_ne in H by congruence.
    split; [|contradiction]. intros Hact. exfalso.
    unfold l1 in H. destruct (decide (i = cur)) as [->|Hnc].
    + rewrite list_lookup_insert_eq in H by assumption. injection H as <-.
      now apply (classList_remove_elem "active" e).
    + rewrite list_lookup_insert_ne in H by congruence.
      apply Hnc. now apply (Hl i e').
Qed.

Lemma goToSlide_ok (index : Z) (c : Carousel) :
  shows c -> 0 <= index + Z.of_nat (length (slides c)) ->
  exists c',
    goToSlide index c = (Fulfilled tt, c') /\
    shows c' /\
    currentSlide c'
    = (index + Z.of_nat (length (slides c))) mod Z.of_nat (length (slides c)) /\
    same_but_slide c c'.
Proof.
  intros (Hlen & Hcur & Hs & Hi) Hindex.
  set (n := length (slides c)) in *.
  set (new := (index + Z.of_nat n) mod Z.of_nat n).
  assert (Hnew : 0 <= new < Z.of_nat n) by (apply Z.mod_pos_bound; lia).
  assert (Hrem : Z.rem (index + Z.of_nat n) (Z.of_nat n) = new)
    by (apply Z.rem_mod_nonneg; lia).
  destruct (swap_active (slides c) (Z.to_nat (currentSlide c)) (Z.to_nat new))
    as (e & e1 & He & He1 & Hs'); [fold n; lia | fold n; lia | |].
  { intros i x Hx. rewrite (Hs i x Hx). lia. }
  destruct (swap_active (indicators c) (Z.to_nat (currentSlide c))
              (Z.to_nat new))
    as (d & d1 & Hd & Hd1 & Hi'); [lia | lia | |].
  { intros i x Hx. rewrite (Hi i x Hx). lia. }
  eexists. split; [|split; [|split]].
  - unfold goToSlide, seq.
    rewrite <- (Z2Nat.id (currentSlide c)) at 1 by lia.
    rewrite (on_slide_ok _ _ _ _ He).
    cbn [currentSlide set_slides].
    rewrite <- (Z2Nat.id (currentSlide c)) at 1 by lia.
    rewrite (on_indicator_ok _ _ (set_slides _ c) d) by exact Hd.
    cbn [currentSlide set_slides set_indicators set_currentSlide slides
         indicators].
    rewrite length_insert. fold n. rewrite Hrem.
    rewrite <- (Z2Nat.id new) at 1 by lia.
    rewrite (on_slide_ok _ _ _ e1) by exact He1.
    cbn [currentSlide set_slides set_indicators set_currentSlide slides
         indicators].
    rewrite <- (Z2Nat.id new) at 1 by lia.
    rewrite (on_indicator_ok _ _ _ d1) by exact Hd1.
    reflexivity.
  - unfold shows. cbn. rewrite !length_insert. fold n.
    split; [assumption|]. split; [assumption|]. split.
    + intros i x Hx. rewrite (Hs' i x Hx). lia.
    + intros i x Hx. rewrite (Hi' i x Hx). lia.
  - reflexivity.
  - unfold same_but_slide, same_timers. cbn. rewrite !length_insert. auto 10.
Qed.

Lemma shows_same (c c' : Carousel) : same_show c c' -> shows c -> shows c'.
Proof.
  intros (Hs & Hi & Hc). unfold shows. now rewrite Hs, Hi, Hc.
Qed.

Lemma stopAutoPlay_ok (c : Carousel) :
  exists c', stopAutoPlay c = (Fulfilled tt, c') /\ same_show c c' /\
             touchStartX c' = touchStartX c.
Proof.
  eexists. split; [reflexivity|]. unfold same_show.
  destruct (autoPlayInterval c); cbn; auto.
Qed.

Lemma startAutoPlay_ok (c : Carousel) :
  exists c', startAutoPlay c = (Fulfilled tt, c') /\ same_show c c' /\
             touchStartX c' = touchStartX c.
Proof.
  eexists. split; [reflexivity|]. unfold same_show. cbn. auto.
Qed.

Lemma mod_shift (a n : Z) : (a + n) mod n = a mod n.
Proof.
  replace (a + n) with (a + 1 * n) by lia. apply Z_mod_plus_full.
Qed.

Lemma nextSlide_ok (c : Carousel) :
  shows c ->
  exists c',
    nextSlide c = (Fulfilled tt, c') /\ shows c' /\
    currentSlide c' = (currentSlide c + 1) mod Z.of_nat (length (slides c)) /\
    same_but_slide c c'.
Proof.
  intros H. destruct (goToSlide_ok (currentSlide c + 1) c H)
    as (c' & Hgo & Hshows & Hcur & Hsame).
  { destruct H as (_ & ? & _). lia. }
  exists c'. rewrite mod_shift in Hcur. auto.
Qed.

Lemma prevSlide_ok (c : Carousel) :
  shows c ->
  exists c',
    prevSlide c = (Fulfilled tt, c') /\ shows c' /\
    currentSlide c' = (currentSlide c - 1) mod Z.of_nat (length (slides c)) /\
    same_but_slide c c'.
Proof.
  intros H. destruct (goToSlide_ok (currentSlide c - 1) c H)
    as (c' & Hgo & Hshows & Hcur & Hsame).
  { destruct H as (_ & ? & _). lia. }
  exists c'. rewrite mod_shift in Hcur. auto.
Qed.

Lemma indicator_ok (index : nat) (c : Carousel) :
  shows c -> (index < length (indicators c))%nat ->
  exists c',
    goToSlide (Z.of_nat index) c = (Fulfilled tt, c') /\ shows c' /\
    currentSlide c' = Z.of_nat index /\
    same_but_slide c c'.
Proof.
  intros H Hindex. destruct (goToSlide_ok (Z.of_nat index) c H)
    as (c' & Hgo & Hshows & Hcur & Hsame); [lia|].
  exists c'. rewrite mod_shift, Z.mod_small in Hcur; auto.
  destruct H as (Hlen & _). lia.
Qed.

(** A listener that stops autoplay, moves and starts autoplay again. *)
Lemma stop_move_start (move : Prog Carousel unit) (c : Carousel) (to : Z) :
  (forall c1, same_show c c1 ->
     exists c2, move c1 = (Fulfilled tt, c2) /\ shows c2 /\
                currentSlide c2 = to /\ same_but_slide c1 c2) ->
  exists c',
    (stopAutoPlay ;; move ;; startAutoPlay) c = (Fulfilled tt, c') /\
    shows c' /\ currentSlide c' = to /\
    length (indicators c') = length (indicators c).
Proof.
  intros Hmove. unfold seq.
  destruct (stopAutoPlay_ok c) as (c1 & -> & H1 & _).
  destruct (Hmove c1 H1) as (c2 & -> & Hshows & Hcur & Hsame).
  destruct (startAutoPlay_ok c2) as (c3 & -> & H3 & _).
  exists c3. split; [reflexivity|]. split; [now apply (shows_same c2)|].
  destruct H3 as (_ & Hi & Hc), H1 as (_ & Hi1 & _),
    Hsame as (_ & _ & _ & _ & Hl).
  rewrite Hc, Hi. split; [assumption|]. now rewrite Hl, Hi1.
Qed.

(** No listener of a carousel that shows its current slide throws; each
    leaves it showing the slide the event leads to. *)
Lemma listener_ok (c : Carousel) (ev : CarouselEvent) :
  shows c -> can_happen c ev ->
  exists c',
    listener_of ev c = (Fulfilled tt, c') /\ shows c' /\
    currentSlide c' = destination c ev /\
    length (indicators c') = length (indicators c).
Proof.
  intros Hshows Hev. destruct ev as [| |index| | |x|x|h]; cbn [listener_of].
  - apply stop_move_start. intros c1 H1.
    destruct (nextSlide_ok c1 (shows_same _ _ H1 Hshows)) as (c2 & ? & ? & ? & ?).
    exists c2. destruct H1 as (Hs & _ & Hc). cbn. rewrite <- Hs, <- Hc. auto.
  - apply stop_move_start. intros c1 H1.
    destruct (prevSlide_ok c1 (shows_same _ _ H1 Hshows)) as (c2 & ? & ? & ? & ?).
    exists c2. destruct H1 as (Hs & _ & Hc). cbn. rewrite <- Hs, <- Hc. auto.
  - apply stop_move_start. intros c1 H1.
    destruct (indicator_ok index c1 (shows_same _ _ H1 Hshows))
      as (c2 & ? & ? & ? & ?).
    { destruct H1 as (_ & -> & _). exact Hev. }
    exists c2. auto.
  - destruct (stopAutoPlay_ok c) as (c1 & H & H1 & _).
    exists c1. split; [exact H|]. split; [now apply (shows_same c)|].
    destruct H1 as (_ & -> & ->). auto.
  - destruct (startAutoPlay_ok c) as (c1 & H & H1 & _).
    exists c1. split; [exact H|]. split; [now apply (shows_same c)|].
    destruct H1 as (_ & -> & ->). auto.
  - unfold on_touchstart, seq, set_touchStartX.
    match goal with |- context [stopAutoPlay ?s] =>
      destruct (stopAutoPlay_ok s) as (c1 & -> & H1 & _) end.
    exists c1. split; [reflexivity|].
    split; [now apply (shows_same _ _ H1)|].
    destruct H1 as (_ & -> & ->). auto.
  - unfold on_touchend, seq, set_touchEndX, swipe.
    set (c0 := {| slides := slides c; indicators := indicators c;
                  currentSlide := currentSlide c;
                  autoPlayInterval := autoPlayInterval c;
                  intervals := intervals c; next_handle := next_handle c;
                  touchStartX := touchStartX c; touchEndX := x |}).
    assert (H0 : shows c0) by exact Hshows.
    cbn [destination]. change (touchStartX c0) with (touchStartX c).
    change (touchEndX c0) with x.
    assert (Hfinish : forall c2 to,
              shows c2 -> currentSlide c2 = to ->
              length (indicators c2) = length (indicators c) ->
              exists c',
                (let (r, s') := (Fulfilled tt, c2) in
                 match r with
                 | Fulfilled _ => startAutoPlay s'
                 | Rejected e => (Rejected e, s')
                 end) = (Fulfilled tt, c') /\ shows c' /\
                currentSlide c' = to /\
                length (indicators c') = length (indicators c)).
    { intros c2 to H2 Hto Hl.
      destruct (startAutoPlay_ok c2) as (c3 & -> & H3 & _).
      exists c3. split; [reflexivity|]. split; [now apply (shows_same c2)|].
      destruct H3 as (_ & -> & ->). auto. }
    destruct (touchStartX c - x >? 50).
    + destruct (nextSlide_ok c0 H0) as (c2 & -> & ? & ? & Hsame).
      apply Hfinish; auto. now destruct Hsame as (_ & _ & _ & _ & ->).
    + destruct (x - touchStartX c >? 50).
      * destruct (prevSlide_ok c0 H0) as (c2 & -> & ? & ? & Hsame).
        apply Hfinish; auto. now destruct Hsame as (_ & _ & _ & _ & ->).
      * apply Hfinish; auto.
  - unfold on_interval. cbn [destination]. case_bool_decide.
    + destruct (nextSlide_ok c Hshows) as (c2 & -> & ? & ? & Hsame).
      exists c2. destruct Hsame as (_ & _ & _ & _ & ->). auto.
    + exists c. auto.
Qed.

Lemma can_happen_same (c c' : Carousel) (ev : CarouselEvent) :
  length (indicators c') = length (indicators c) ->
  can_happen c ev -> can_happen c' ev.
Proof.
  intros H. destruct ev; cbn; auto. now rewrite H.
Qed.

(** A carousel that shows its current slide goes on showing it: after
    any clicks, hovers, touches and intervals coming due, exactly the
    slide and the indicator at [currentSlide] are active, and no
    listener has thrown. *)
Theorem carousel_keeps_one_slide_active (c : Carousel)
    (evs : list CarouselEvent) :
  shows c -> Forall (can_happen c) evs ->
  shows (carousel_run evs c) /\ thrown evs c = [].
Proof.
  revert c. induction evs as [|ev evs IH]; intros c Hshows Hevs.
  - split; [exact Hshows | reflexivity].
  - apply Forall_cons in Hevs as [Hev Hevs].
    destruct (listener_ok c ev Hshows Hev) as (c' & Hrun & Hshows' & _ & Hlen).
    cbn [carousel_run foldl thrown]. unfold carousel_step, handled.
    rewrite Hrun. cbn [snd]. apply IH; [assumption|].
    eapply Forall_impl; [exact Hevs|]. intros ev'.
    now apply can_happen_same.
Qed.

(** The slide each event leads to: the next and the previous slide
    wrap around at the ends, an indicator leads to its own slide, a
    swipe moves only if it is longer than 50 pixels, an interval moves
    on only while it runs; the slide reached is one of the slides. *)
Theorem carousel_event_leads_to (c : Carousel) (ev : CarouselEvent) :
  shows c -> can_happen c ev ->
  currentSlide (carousel_step c ev) = destination c ev /\
  0 <= destination c ev < Z.of_nat (length (slides c)).
Proof.
  intros Hshows Hev.
  destruct (listener_ok c ev Hshows Hev) as (c' & Hrun & Hshows' & Hcur & Hlen).
  unfold carousel_step, handled. rewrite Hrun. cbn [snd].
  split; [exact Hcur|]. rewrite <- Hcur.
  destruct Hshows' as (Hl' & Hc' & _), Hshows as (Hl & _). lia.
Qed.

Lemma step_shows (c : Carousel) (ev : CarouselEvent) :
  shows c -> can_happen c ev ->
  shows (carousel_step c ev) /\
  currentSlide (carousel_step c ev) = destination c ev /\
  length (slides (carousel_step c ev)) = length (slides c).
Proof.
  intros Hshows Hev.
  destruct (listener_ok c ev Hshows Hev) as (c' & Hrun & Hshows' & Hcur & Hlen).
  unfold carousel_step, handled. rewrite Hrun. cbn [snd].
  split; [assumption|]. split; [assumption|].
  destruct Hshows' as (Hl' & _), Hshows as (Hl & _). lia.
Qed.

Lemma next_clicks (k : nat) (c : Carousel) :
  shows c ->
  shows (carousel_run (replicate k NextClick) c) /\
  currentSlide (carousel_run (replicate k NextClick) c)
  = (currentSlide c + Z.of_nat k) mod Z.of_nat (length (slides c)) /\
  length (slides (carousel_run (replicate k NextClick) c))
  = length (slides c).
Proof.
  revert c. induction k as [|k IH]; intros c Hshows.
  - cbn. split; [assumption|]. split; [|reflexivity].
    rewrite Z.add_0_r, Z.mod_small; [reflexivity|]. now destruct Hshows as (_ & ? & _).
  - destruct (step_shows c NextClick Hshows I) as (H1 & Hcur & Hlen).
    destruct (IH _ H1) as (H2 & Hcur2 & Hlen2).
    cbn [replicate carousel_run foldl].
    split; [exact H2|]. split; [|now rewrite <- Hlen].
    unfold carousel_run in Hcur2. rewrite Hcur2, Hcur, Hlen.
    cbn [destination]. rewrite Zplus_mod_idemp_l. f_equal. lia.
Qed.

(** Next and previous undo each other, and as many clicks on next as
    there are slides lead back to the slide they started from. *)
Theorem carousel_round_trips (c : Carousel) :
  shows c ->
  currentSlide (carousel_run [NextClick; PrevClick] c) = currentSlide c /\
  currentSlide (carousel_run [PrevClick; NextClick] c) = currentSlide c /\
  currentSlide (carousel_run (replicate (length (slides c)) NextClick) c)
  = currentSlide c.
Proof.
  intros Hshows. pose proof Hshows as (_ & Hcur & _).
  split; [|split].
  - destruct (step_shows c NextClick Hshows I) as (H1 & Hc1 & Hl1).
    destruct (step_shows _ PrevClick H1 I) as (_ & Hc2 & _).
    cbn [carousel_run foldl]. rewrite Hc2. cbn [destination].
    rewrite Hc1, Hl1. cbn [destination].
    rewrite Zminus_mod_idemp_l. rewrite Z.mod_small; lia.
  - destruct (step_shows c PrevClick Hshows I) as (H1 & Hc1 & Hl1).
    destruct (step_shows _ NextClick H1 I) as (_ & Hc2 & _).
    cbn [carousel_run foldl]. rewrite Hc2. cbn [destination].
    rewrite Hc1, Hl1. cbn [destination].
    rewrite Zplus_mod_idemp_l. rewrite Z.mod_small; lia.
  - destruct (next_clicks (length (slides c)) c Hshows) as (_ & -> & _).
    rewrite mod_shift. apply Z.mod_small. exact Hcur.
Qed.

(** A touch that ends at most 50 pixels from where it started changes
    no slide and no indicator, whatever the carousel. *)
Theorem short_swipe_keeps_the_slide (c : Carousel) (x0 x1 : Z) :
  -50 <= x0 - x1 <= 50 ->
  let c' := carousel_run [TouchStart x0; TouchEnd x1] c in
  slides c' = slides c /\ indicators c' = indicators c /\
  currentSlide c' = currentSlide c.
Proof.
  intros Hx. cbn [carousel_run foldl]. unfold carousel_step, handled.
  cbn [listener_of]. unfold on_touchstart, on_touchend, seq, set_touchStartX,
    set_touchEndX, swipe, stopAutoPlay, startAutoPlay, ret.
  destruct (autoPlayInterval c); cbn [fst snd touchStartX touchEndX slides
    indicators currentSlide autoPlayInterval intervals next_handle];
  (destruct (Z.gtb_spec (x0 - x1) 50); [lia|]);
  (destruct (Z.gtb_spec (x1 - x0) 50); [lia|]); cbn; auto.
Qed.

(** Properties that every listener keeps, whether it returns or throws. *)
Section Preserved.
Variable P : Carousel -> Prop.

Lemma preserves_seq {A B : Type} (m : Prog Carousel A)
    (k : A -> Prog Carousel B) :
  preserves P m -> (forall a, preserves P (k a)) -> preserves P (seq m k).
Proof.
  intros Hm Hk c Hc. unfold seq. specialize (Hm c Hc).
  destruct (m c) as [[a|e] c1]; cbn in *; [now apply Hk | assumption].
Qed.

Hypothesis P_stop : preserves P stopAutoPlay.
Hypothesis P_start : preserves P startAutoPlay.
Hypothesis P_go : forall index, preserves P (goToSlide index).
Hypothesis P_start_x : forall x, preserves P (set_touchStartX x).
Hypothesis P_end_x : forall x, preserves P (set_touchEndX x).

Lemma preserves_listener (ev : CarouselEvent) : preserves P (listener_of ev).
Proof.
  assert (Hnext : preserves P nextSlide) by (intros c; apply P_go).
  assert (Hprev : preserves P prevSlide) by (intros c; apply P_go).
  destruct ev; cbn [listener_of];
    unfold on_next_click, on_prev_click, on_indicator_click, on_mouseenter,
      on_mouseleave, on_touchstart, on_touchend;
    repeat first [ assumption | apply P_go | apply P_start_x | apply P_end_x
                 | apply preserves_seq; [|intros _] ].
  - intros c Hc. unfold swipe.
    destruct (_ >? _); [now apply Hnext|].
    destruct (_ >? _); [now apply Hprev | exact Hc].
  - intros c Hc. unfold on_interval.
    case_bool_decide; [now apply Hnext | exact Hc].
Qed.

Lemma preserves_run (evs : list CarouselEvent) (c : Carousel) :
  P c -> P (carousel_run evs c).
Proof.
  revert c. induction evs as [|ev evs IH]; intros c Hc; [exact Hc|].
  cbn [carousel_run foldl]. apply IH. now apply preserves_listener.
Qed.
End Preserved.









Lemma item_Some_lookup {A : Type} (l : list A) (i : Z) (a : A) :
  item l i = Some a -> 0 <= i /\ l !! Z.to_nat i = Some a.
Proof.
  unfold item. destruct (Z.ltb_spec i 0); [discriminate|]. auto.
Qed.

Lemma item_None_length {A : Type} (l : list A) (i : Z) :
  item l i = None <-> i < 0 \/ Z.of_nat (length l) <= i.
Proof.
  unfold item. destruct (Z.ltb_spec i 0).
  - split; auto.
  - rewrite lookup_ge_None. lia.
Qed.

(** A stuck carousel: every move throws, at line 56 or at line 57, and
    takes the class [active] from the current slide if there is one. *)
Lemma goToSlide_stuck (index : Z) (c : Carousel) :
  stuck c ->
  exists c',
    goToSlide index c = (Rejected TypeError, c') /\
    currentSlide c' = currentSlide c /\
    length (slides c') = length (slides c) /\
    indicators c' = indicators c /\
    forall i e, slides c' !! i = Some e -> active e ->
                slides c !! i = Some e /\ Z.of_nat i <> currentSlide c.
Proof.
  intros Hstuck. unfold goToSlide, seq.
  destruct (item (slides c) (currentSlide c)) as [e|] eqn:Hslide.
  - destruct Hstuck as [Hs|Hi]; [congruence|].
    destruct (item_Some_lookup _ _ _ Hslide) as [Hpos He].
    unfold on_slide at 1. rewrite Hslide.
    unfold on_indicator at 1.
    cbn [currentSlide set_slides indicators]. rewrite Hi.
    eexists. split; [reflexivity|]. cbn. rewrite length_insert.
    do 3 (split; [reflexivity|]). intros i x Hx Ha.
    destruct (decide (i = Z.to_nat (currentSlide c))) as [->|Hne].
    + rewrite list_lookup_insert_eq in Hx by (now apply lookup_lt_is_Some_1).
      injection Hx as <-.
      now destruct (classList_remove_elem "active" e).
    + rewrite list_lookup_insert_ne in Hx by congruence.
      split; [assumption|]. lia.
  - unfold on_slide at 1. rewrite Hslide.
    exists c. do 4 (split; [reflexivity|]). intros i x Hx Ha.
    split; [assumption|]. intros E. apply item_None_length in Hslide.
    apply lookup_lt_Some in Hx. lia.
Qed.

Section Stuck.
Variable c0 : Carousel.
Hypothesis c0_stuck : stuck c0.

Lemma stays_stuck (c : Carousel) : stays c0 c -> stuck c.
Proof.
  intros (Hc & Hs & Hi & _). unfold stuck in *.
  rewrite !item_None_length in *. rewrite Hc, Hs, Hi. exact c0_stuck.
Qed.

Lemma stays_run (evs : list CarouselEvent) : stays c0 (carousel_run evs c0).
Proof.
  apply (preserves_run (stays c0)).
  - intros c H. unfold stopAutoPlay. cbn [snd].
    destruct (autoPlayInterval c); exact H.
  - intros c H. exact H.
  - intros index c H.
    destruct (goToSlide_stuck index c (stays_stuck c H))
      as (c' & -> & Hc & Hs & Hi & Hact).
    destruct H as (Hc0 & Hs0 & Hi0 & Hact0). cbn [snd].
    split; [congruence|]. split; [congruence|]. split; [congruence|].
    intros i e He Ha. destruct (Hact i e He Ha) as [He' _]. eauto.
  - intros x c H. exact H.
  - intros x c H. exact H.
  - repeat split; auto. eauto.
Qed.
End Stuck.

(** A carousel whose current slide, or its indicator, does not exist
    never moves again: whatever happens, [currentSlide] stays, no slide
    becomes active, every move throws a [TypeError], and after a move
    the current slide is not active. *)
Theorem carousel_stuck_without_indicator (c : Carousel)
    (evs : list CarouselEvent) (index : Z) :
  stuck c ->
  let c' := carousel_run evs c in
  currentSlide c' = currentSlide c /\
  (forall i e, slides c' !! i = Some e -> active e ->
               exists e0, slides c !! i = Some e0 /\ active e0) /\
  fst (goToSlide index c') = Rejected TypeError /\
  forall e, item (slides (snd (goToSlide index c'))) (currentSlide c) = Some e ->
            ~ active e.
Proof.
  intros Hstuck c'. pose proof (stays_run c Hstuck evs) as Hstays.
  fold c' in Hstays. pose proof (stays_stuck c Hstuck c' Hstays) as Hstuck'.
  destruct Hstays as (Hc & _ & _ & Hact).
  split; [exact Hc|]. split; [exact Hact|].
  destruct (goToSlide_stuck index c' Hstuck') as (c2 & -> & _ & _ & _ & Hoff).
  split; [reflexivity|]. cbn [snd]. intros e He Ha.
  apply item_Some_lookup in He as [Hpos He].
  destruct (Hoff _ _ He Ha) as [_ Hne]. apply Hne. rewrite Hc. lia.
Qed.
End HeroCarousel.

(** ** The gallery filter and the lightbox *)

Section GalleryFilter.
Import Site.

Lemma remove_add_remove (t : string) (e : Dom.Element) :
  Dom.classList_remove t (Dom.classList_add t (Dom.classList_remove t e))
  = Dom.classList_remove t e.
Proof.
  unfold Dom.classList_remove, Dom.classList_add. cbn. f_equal.
  rewrite bool_decide_eq_false_2
    by (rewrite list_elem_of_filter; now intros [? _]).
  rewrite filter_app. cbn. rewrite decide_False by (now intros ?).
  rewrite app_nil_r. apply list_filter_filter_l. auto.
Qed.

Lemma remove_remove (t : string) (e : Dom.Element) :
  Dom.classList_remove t (Dom.classList_remove t e)
  = Dom.classList_remove t e.
Proof.
  unfold Dom.classList_remove. cbn. f_equal.
  apply list_filter_filter_l. auto.
Qed.

Lemma buttons_off_again (k : nat) (l : list (option string * Dom.Element)) :
  button_off <$> alter button_on k (button_off <$> l) = button_off <$> l.
Proof.
  apply list_eq. intros i. rewrite !list_lookup_fmap.
  destruct (decide (i = k)) as [->|Hne].
  - rewrite list_lookup_alter_eq, list_lookup_fmap.
    destruct (l !! k) as [[f e]|]; [|reflexivity]. cbn.
    unfold button_off. cbn. now rewrite remove_add_remove.
  - rewrite list_lookup_alter_ne by congruence. rewrite list_lookup_fmap.
    destruct (l !! i) as [[f e]|]; [|reflexivity]. cbn.
    unfold button_off. cbn. now rewrite remove_remove.
Qed.

Lemma filter_tile_again (f f' : option string) (t : Tile) :
  filter_tile f (filter_tile f' t) = filter_tile f t.
Proof.
  unfold filter_tile. destruct (data_category t) as [c|] eqn:Hc.
  - destruct (_ || _); cbn; destruct (_ || _); reflexivity.
  - now rewrite Hc.
Qed.

Lemma filter_tiles_again (f f' : option string) (tiles : list Tile) :
  filter_tile f <$> (filter_tile f' <$> tiles) = filter_tile f <$> tiles.
Proof.
  rewrite <- list_fmap_compose. apply list_fmap_ext.
  intros i t _. apply filter_tile_again.
Qed.

(** The last click on a filter button decides: what the page shows
    after it does not depend on the click before it. *)
Theorem last_filter_click_wins (g : Gallery) (j k : nat) :
  is_Some (filterBtns g !! k) ->
  on_filter_click k (on_filter_click j g) = on_filter_click k g.
Proof.
  intros [this Hk]. unfold on_filter_click at 2.
  destruct (filterBtns g !! j) as [that|] eqn:Hj; [|reflexivity].
  assert (Hthis : forall tiles tiles',
    on_filter_click k
      {| filterBtns := alter button_on j (button_off <$> filterBtns g);
         galleryGrid := tiles; storeGrid := tiles' |}
    = match tiles with
      | Some ts =>
          {| filterBtns := alter button_on k (button_off <$> filterBtns g);
             galleryGrid := Some (filter_tile (fst this) <$> ts);
             storeGrid := tiles' |}
      | None =>
          match tiles' with
          | Some ts =>
              {| filterBtns := alter button_on k (button_off <$> filterBtns g);
                 galleryGrid := None;
                 storeGrid := Some (filter_tile (fst this) <$> ts) |}
          | None =>
              {| filterBtns := alter button_on k (button_off <$> filterBtns g);
                 galleryGrid := None; storeGrid := None |}
          end
      end).
  { intros tiles tiles'. unfold on_filter_click. cbn [filterBtns galleryGrid storeGrid].
    rewrite buttons_off_again.
    destruct (decide (k = j)) as [->|Hne].
    - rewrite list_lookup_alter_eq, list_lookup_fmap, Hk. cbn.
      reflexivity.
    - rewrite list_lookup_alter_ne by congruence.
      rewrite list_lookup_fmap, Hk. cbn. reflexivity. }
  destruct (galleryGrid g) as [tiles|] eqn:Hgallery.
  - rewrite Hthis. unfold on_filter_click.
    now rewrite Hk, Hgallery, filter_tiles_again.
  - destruct (storeGrid g) as [tiles|] eqn:Hstore; rewrite Hthis;
      unfold on_filter_click; rewrite Hk, Hgallery, Hstore;
      [now rewrite filter_tiles_again | reflexivity].
Qed.

Lemma buttons_after_click (k : nat) (l : list (option string * Dom.Element))
    (j : nat) (f : option string) (e : Dom.Element) :
  alter button_on k (button_off <$> l) !! j = Some (f, e) ->
  (active e <-> j = k) /\ exists e0, l !! j = Some (f, e0).
Proof.
  destruct (decide (j = k)) as [->|Hne].
  - rewrite list_lookup_alter_eq, list_lookup_fmap.
    destruct (l !! k) as [[f0 e0]|]; [|discriminate]. cbn. intros [= <- <-].
    split; [|eauto]. split; [reflexivity|]. intros _.
    apply classList_add_elem.
  - rewrite list_lookup_alter_ne by congruence. rewrite list_lookup_fmap.
    destruct (l !! j) as [[f0 e0]|]; [|discriminate]. cbn. intros [= <- <-].
    split; [|eauto]. split; [|contradiction]. intros Ha.
    now destruct (classList_remove_elem "active" e0).
Qed.

Lemma filter_tile_spec (filter : option string) (t : Tile) :
  data_category (filter_tile filter t) = data_category t /\
  match data_category t with
  | Some category =>
      display (filter_tile filter t) = "" /\
      (filter = Some "all" \/ filter = Some category) \/
      display (filter_tile filter t) = "none" /\
      filter <> Some "all" /\ filter <> Some category
  | None => display (filter_tile filter t) = display t
  end.
Proof.
  unfold filter_tile. destruct (data_category t) as [category|] eqn:Hc.
  - repeat case_bool_decide; cbn; (split; [reflexivity|]); auto.
  - now rewrite Hc.
Qed.

(** A click on a filter button shows, in the gallery grid or else in
    the store grid, the tiles of its category (all of them for [all])
    and hides the other tiles that have a category; tiles without one
    are left alone; the clicked button alone is active; the store grid
    is not filtered when the page has a gallery grid. *)
Theorem filter_click_shows_matching (g : Gallery) (k : nat)
    (filter : option string) (b : Dom.Element) (tiles : list Tile) :
  filterBtns g !! k = Some (filter, b) -> grid g = Some tiles ->
  let g' := on_filter_click k g in
  (exists tiles',
     grid g' = Some tiles' /\ length tiles' = length tiles /\
     forall i t', tiles' !! i = Some t' ->
       exists t, tiles !! i = Some t /\
         data_category t' = data_category t /\
         match data_category t with
         | Some category =>
             display t' = "" /\
             (filter = Some "all" \/ filter = Some category) \/
             display t' = "none" /\
             filter <> Some "all" /\ filter <> Some category
         | None => display t' = display t
         end) /\
  (forall j f e, filterBtns g' !! j = Some (f, e) ->
     (active e <-> j = k) /\ exists e0, filterBtns g !! j = Some (f, e0)) /\
  (is_Some (galleryGrid g) -> storeGrid g' = storeGrid g).
Proof.
  intros Hk Hgrid g'.
  assert (Htiles : forall i t', (filter_tile filter <$> tiles) !! i = Some t' ->
            exists t, tiles !! i = Some t /\
              data_category t' = data_category t /\
              match data_category t with
              | Some category =>
                  display t' = "" /\
                  (filter = Some "all" \/ filter = Some category) \/
                  display t' = "none" /\
                  filter <> Some "all" /\ filter <> Some category
              | None => display t' = display t
              end).
  { intros i t'. rewrite list_lookup_fmap.
    destruct (tiles !! i) as [t|]; [|discriminate]. cbn. intros [= <-].
    exists t. split; [reflexivity|]. apply filter_tile_spec. }
  subst g'. unfold on_filter_click, grid in *. rewrite Hk. cbn [fst].
  destruct (galleryGrid g) as [ts|] eqn:Hgallery.
  - injection Hgrid as ->. cbn. split; [|split].
    + eexists. split; [reflexivity|]. split; [apply length_fmap | exact Htiles].
    + intros j f e. apply buttons_after_click.
    + reflexivity.
  - rewrite Hgrid. cbn. split; [|split].
    + eexists. split; [reflexivity|]. split; [apply length_fmap | exact Htiles].
    + intros j f e. apply buttons_after_click.
    + intros [? [=]].
Qed.
End GalleryFilter.

Section LightboxProperties.
Import Site.

Lemma dismiss_closed (box : Dom.Element) (s : Lightbox) :
  lightbox_open (dismiss box s) = false /\ overflow (dismiss box s) = "" /\
  lightboxImage (dismiss box s) = lightboxImage s.
Proof.
  unfold lightbox_open, dismiss. cbn. now rewrite contains_remove.
Qed.

(** A click on a gallery item opens the lightbox on its picture and
    locks scrolling; the close button, a click on the backdrop and
    Escape each close it and unlock scrolling, the picture staying. *)
Theorem lightbox_opens_and_closes (s : Lightbox) (box : Dom.Element)
    (items : list (option Image)) (index : nat) (img old : Image)
    (ev : LightboxEvent) :
  lightbox s = Some box -> galleryItems s = Some items ->
  items !! index = Some (Some img) -> lightboxImage s = Some old ->
  ev = LightboxClick true \/ ev = KeyDown "Escape" \/
  (ev = CloseClick /\ lightboxClose s = true) ->
  let s1 := lightbox_step s (ItemClick index) in
  let s2 := lightbox_step s1 ev in
  (lightbox_open s1 = true /\ lightboxImage s1 = Some img /\
   overflow s1 = "hidden") /\
  (lightbox_open s2 = false /\ lightboxImage s2 = Some img /\
   overflow s2 = "").
Proof.
  intros Hbox Hitems Hitem Himage Hev s1 s2.
  assert (H1 : s1 = {| lightbox := Some (Dom.classList_add "active" box);
                       lightboxImage := Some img;
                       lightboxClose := lightboxClose s;
                       galleryItems := Some items;
                       overflow := "hidden" |}).
  { subst s1. unfold lightbox_step. rewrite Hbox, Hitems, Hitem, Himage.
    now destruct img. }
  split.
  - rewrite H1. unfold lightbox_open. cbn. now rewrite contains_add.
  - assert (H2 : s2 = dismiss (Dom.classList_add "active" box) s1).
    { subst s2. rewrite H1. unfold lightbox_step. cbn [lightbox galleryItems].
      destruct Hev as [->|[->|[-> Hclose]]].
      - reflexivity.
      - cbn [String.eqb Ascii.eqb Bool.eqb andb]. now rewrite contains_add.
      - cbn [lightboxClose]. now rewrite Hclose. }
    rewrite H2. destruct (dismiss_closed (Dom.classList_add "active" box) s1)
      as (-> & -> & ->).
    rewrite H1. auto.
Qed.

Lemma lightbox_step_cases (s : Lightbox) (ev : LightboxEvent) :
  lightbox_step s ev = s \/
  (exists box, lightbox_step s ev = dismiss box s) \/
  (lightbox_open (lightbox_step s ev) = true /\
   overflow (lightbox_step s ev) = "hidden").
Proof.
  unfold lightbox_step.
  destruct (lightbox s) as [box|]; [|now left].
  destruct (galleryItems s) as [items|]; [|now left].
  destruct ev as [index| |on_box|key].
  - destruct (items !! index) as [[img|]|]; [|now left|now left].
    destruct (lightboxImage s); [|now left].
    right. right. unfold lightbox_open. cbn. now rewrite contains_add.
  - destruct (lightboxClose s); [right; left; eauto | now left].
  - destruct on_box; [right; left; eauto | now left].
  - destruct (_ && _); [right; left; eauto | now left].
Qed.

(** The page is locked against scrolling exactly while the lightbox is
    open: this holds after any events if it holds before them. *)
Theorem lightbox_locks_scrolling_while_open (s : Lightbox)
    (evs : list LightboxEvent) :
  scroll_locked s -> scroll_locked (lightbox_run evs s).
Proof.
  revert s. induction evs as [|ev evs IH]; intros s Hs; [exact Hs|].
  cbn [lightbox_run foldl]. apply IH.
  destruct (lightbox_step_cases s ev) as [->|[[box ->]|[Hopen Hhidden]]].
  - exact Hs.
  - destruct (dismiss_closed box s) as (Hc & Ho & _).
    unfold scroll_locked. rewrite Hc, Ho. split; discriminate.
  - unfold scroll_locked. now rewrite Hopen, Hhidden.
Qed.
End LightboxProperties.

(** ** Witnesses on the example pages *)

Section SiteWitnesses.
Import Site SiteExamples.

Lemma hero_shows : shows hero.
Proof.
  unfold shows, active. cbn. split; [reflexivity|]. split; [lia|].
  split; intros [|[|[|i]]] e [= <-]; cbn; split; try lia; try discriminate;
    try (intros _; apply (bool_decide_unpack _); vm_compute; exact I);
    intros H; apply (bool_decide_pack _) in H; vm_compute in H; destruct H.
Qed.


Lemma nav_toggle_stays_in_sync_witness :
  in_sync
    (nav_run [ToggleClick; DropdownLinkClick 0; AnchorClick true; ToggleClick]
       menu).
Proof.
  apply (nav_toggle_stays_in_sync menu).
  exists (element "button" ["mobile-toggle"]), (element "nav" ["main-nav"]).
  repeat split.
Defined.

Lemma carousel_keeps_one_slide_active_witness :
  let evs := [NextClick; IndicatorClick 2; TouchStart 300; TouchEnd 100;
              IntervalDue 0; PrevClick] in
  shows (carousel_run evs hero) /\ thrown evs hero = [].
Proof.
  intros evs. apply (carousel_keeps_one_slide_active hero evs hero_shows).
  repeat constructor.
Defined.

Lemma carousel_event_leads_to_witness :
  currentSlide (carousel_step hero PrevClick) = 2.
Proof.
  exact (proj1 (carousel_event_leads_to hero PrevClick hero_shows I)).
Defined.

Lemma carousel_round_trips_witness :
  currentSlide (carousel_run [NextClick; NextClick; NextClick] hero) = 0.
Proof.
  exact (proj2 (proj2 (carousel_round_trips hero hero_shows))).
Defined.

Lemma short_swipe_keeps_the_slide_witness :
  currentSlide (carousel_run [TouchStart 200; TouchEnd 150] hero) = 0.
Proof.
  refine (proj2 (proj2 (short_swipe_keeps_the_slide hero 200 150 _))). lia.
Defined.


Lemma carousel_stuck_without_indicator_witness :
  stuck short_hero /\
  currentSlide (carousel_run [PrevClick; IndicatorClick 0] short_hero) = 2.
Proof.
  assert (H : stuck short_hero) by (right; reflexivity).
  split; [exact H|].
  exact (proj1 (carousel_stuck_without_indicator short_hero
                  [PrevClick; IndicatorClick 0] 0 H)).
Defined.

Lemma last_filter_click_wins_witness :
  on_filter_click 1 (on_filter_click 2 gallery) = on_filter_click 1 gallery.
Proof.
  apply (last_filter_click_wins gallery 2 1). eexists. reflexivity.
Defined.

Lemma filter_click_shows_matching_witness :
  display <$> default [] (grid (on_filter_click 1 gallery))
  = [""; "none"; ""; ""].
Proof.
  destruct (filter_click_shows_matching gallery 1 (Some "urns")
              (element "button" ["filter-btn"])
              [{| data_category := Some "urns"; display := "" |};
               {| data_category := Some "jewelry"; display := "" |};
               {| data_category := Some "urns"; display := "" |};
               {| data_category := None; display := "" |}]
              eq_refl eq_refl) as [_ _].
  reflexivity.
Defined.

Lemma lightbox_opens_and_closes_witness :
  lightbox_open (lightbox_run [ItemClick 0; KeyDown "Escape"] viewer) = false.
Proof.
  exact (proj1 (proj2 (lightbox_opens_and_closes viewer
           (element "div" ["lightbox"])
           [Some {| src := "images/gallery/urn-1.jpg"; alt := "Oak urn" |};
            None]
           0 {| src := "images/gallery/urn-1.jpg"; alt := "Oak urn" |}
           {| src := ""; alt := "" |} (KeyDown "Escape")
           eq_refl eq_refl eq_refl eq_refl (or_intror (or_introl eq_refl))))).
Defined.

Lemma lightbox_locks_scrolling_while_open_witness :
  scroll_locked
    (lightbox_run [ItemClick 0; LightboxClick false; KeyDown "Enter";
                   ItemClick 1; CloseClick] viewer).
Proof.
  apply (lightbox_locks_scrolling_while_open viewer).
  split; discriminate.
Defined.

End SiteWitnesses.
